(** * passgen: password and passphrase generation

    A shallow embedding of [GeneratePasswords] (password.go) and
    [GeneratePassphrases] (passphrase.go), and the properties of the
    bit-sliced symbol extraction they share.

    Conventions of the embedding.
    - Go's [uint] is a 64-bit word: a [Z] in [0, 2^64) whose arithmetic wraps.
    - A [rune] is a [Z]; a Go string is the list of the code points a
      [range] loop over it yields, and the list of runes written to a
      [strings.Builder]: strings are taken to be valid UTF-8, and the length
      of a string is its number of code points.
    - A [map[K]struct{}] is a [gmap K ()]; the order in which [range] visits
      its keys is not fixed by the language, so it is a parameter
      ([map_range]) that permutes the keys.  Each call ranges over one map
      once, and the properties hold for every such order.
    - [randSource] is an [io.Reader]; the interface is the class [Reader],
      and [bytes.Reader] (used by the tests) is an instance of it.
    - The named constants of the package (bounds and casing selectors) are
      declared apart from the two generators; the bounds and selectors are
      parameters of the development (class [Constants]).
    - [math.Ceil(math.Log2(float64(n)))] is taken at its exact value; the
      case tables of the [unicode] package outside ASCII are parameters
      (class [UnicodeTables]).
    - Of the commands (cmd/passgen) the [Args] and [RunE] functions are
      embedded: the configuration is the one the flags leave, what is
      printed is the list of runes written to the output, and the lines of
      a word-list file are an input of [RunE]. *)

From Stdlib Require Import ZArith Lia Ascii String DecimalString DecimalPos.
From stdpp Require Import base option list gmap strings.

Local Open Scope Z_scope.

(** ** Machine integers *)

Module Go.

Definition uint_bits : Z := 64.
Definition uint_modulus : Z := 2 ^ uint_bits.

(** Largest value of Go's [int], the type of [len]. *)
Definition MaxInt : Z := 2 ^ 63 - 1.

(** Reduction of a mathematical result to a [uint]. *)
Definition wrap (z : Z) : Z := z mod uint_modulus.

Definition uadd (a b : Z) : Z := wrap (a + b).
Definition usub (a b : Z) : Z := wrap (a - b).
Definition umul (a b : Z) : Z := wrap (a * b).

(** [x << k] on a [uint]. *)
Definition ushl (a k : Z) : Z := wrap (Z.shiftl a k).

(** [len(s)] as a [uint]. *)
Definition len {A} (l : list A) : Z := Z.of_nat (length l).

(** [uint(math.Ceil(math.Log2(float64(n))))].  The floating point evaluation
    is abstracted by its exact value: the least [k] with [n <= 2^k]. *)
Definition ceil_log2 (n : Z) : Z := Z.log2_up n.

End Go.

(** ** Errors and [fmt.Errorf] *)

(** Decimal rendering of a [%d] argument. *)
Definition decimal (z : Z) : string := NilZero.string_of_int (Z.to_int z).

(** [fmt.Sprintf] restricted to the [%d] verb, the only one the package
    uses. *)
Fixpoint Sprintf (format : string) (args : list Z) : string :=
  match format with
  | EmptyString => EmptyString
  | String "%"%char (String "d"%char rest) =>
      match args with
      | a :: args' => (decimal a +:+ Sprintf rest args')%string
      | [] => ("%!d(MISSING)" +:+ Sprintf rest [])%string
      end
  | String c rest => String c (Sprintf rest args)
  end.

Inductive error : Type :=
  | errorString (msg : string)      (* built by [fmt.Errorf] *)
  | EOF                             (* [io.EOF] *)
  | ErrUnexpectedEOF                (* [io.ErrUnexpectedEOF] *)
  | readerError (code : Z).         (* any other failure of the source *)

Definition Errorf (format : string) (args : list Z) : error :=
  errorString (Sprintf format args).

(** ** The random source *)

(** [io.ReadFull(randSource, buf)] with [len(buf) = n]: either the [n] bytes
    that now fill the buffer, or the error. *)
Class Reader (R : Type) := {
  ReadFull : R → nat → (error + list Z) * R;
  ReadFull_length : ∀ r n buf r',
    ReadFull r n = (inr buf, r') → length buf = n
}.

(** [bytes.Reader]: the unread part of a byte slice. *)
Definition bytes_ReadFull (src : list Z) (n : nat) : (error + list Z) * list Z :=
  if decide (n = 0%nat) then (inr [], src)
  else if decide (length src = 0%nat) then (inl EOF, src)
  else if decide (length src < n)%nat then (inl ErrUnexpectedEOF, [])
  else (inr (take n src), drop n src).

#[export] Instance bytes_Reader : Reader (list Z) :=
  {| ReadFull := bytes_ReadFull;
     ReadFull_length := ltac:(
       unfold bytes_ReadFull; intros src n buf src';
       repeat case_decide; intros [= <- <-]; subst; try done;
       rewrite length_take; lia) |}.

(** ** Strings and the [unicode] package *)

Abbreviation rune := Z (only parsing).
Abbreviation gostring := (list Z) (only parsing).

(** The code points of an ASCII literal. *)
Definition runes (s : string) : gostring :=
  (λ a, Z.of_N (N_of_ascii a)) <$> list_ascii_of_string s.

(** The case tables of the [unicode] package outside ASCII, which the
    standard library generates from the Unicode database. *)
Class UnicodeTables := {
  unicode_To : Z → rune → rune;   (* [unicode.To(_case, r)] for [r > MaxASCII] *)
  unicode_IsLetter : rune → bool;
  unicode_IsDigit : rune → bool;
  unicode_IsSpace : rune → bool
}.

Module unicode.
Section Tables.
Context `{UnicodeTables}.

Definition MaxASCII : rune := 127.
Definition UpperCase : Z := 0.
Definition LowerCase : Z := 1.
Definition TitleCase : Z := 2.

Definition ToUpper (r : rune) : rune :=
  if r <=? MaxASCII then
    (if (97 <=? r) && (r <=? 122) then r - (97 - 65) else r)
  else unicode_To UpperCase r.

Definition ToLower (r : rune) : rune :=
  if r <=? MaxASCII then
    (if (65 <=? r) && (r <=? 90) then r + (97 - 65) else r)
  else unicode_To LowerCase r.

Definition ToTitle (r : rune) : rune :=
  if r <=? MaxASCII then
    (if (97 <=? r) && (r <=? 122) then r - (97 - 65) else r)
  else unicode_To TitleCase r.
End Tables.
End unicode.

Module strings.
Section Tables.
Context `{UnicodeTables}.

Definition ToLower (s : gostring) : gostring := unicode.ToLower <$> s.
Definition ToUpper (s : gostring) : gostring := unicode.ToUpper <$> s.

(** [isSeparator]: ASCII alphanumerics and underscore are not separators;
    outside ASCII letters and digits are not, spaces are. *)
Definition isSeparator (r : rune) : bool :=
  if r <=? 127 then
    if (48 <=? r) && (r <=? 57) then false
    else if (97 <=? r) && (r <=? 122) then false
    else if (65 <=? r) && (r <=? 90) then false
    else if r =? 95 then false
    else true
  else if unicode_IsLetter r || unicode_IsDigit r then false
  else unicode_IsSpace r.

(** The closure of [Title], with its captured variable [prev]. *)
Fixpoint Title_from (prev : rune) (s : gostring) : gostring :=
  match s with
  | [] => []
  | r :: s' =>
      (if isSeparator prev then unicode.ToTitle r else r) :: Title_from r s'
  end.

(** [strings.Title]: the first letter of every word mapped to title case,
    the other runes kept. *)
Definition Title (s : gostring) : gostring := Title_from 32 s.
End Tables.
End strings.

(** ** Iteration over a map *)

(** The order in which a [range] loop visits the keys of a map: some
    arrangement of the keys, each visited once. *)
Class MapRange := {
  map_range : ∀ {K : Type}, list K → list K;
  map_range_perm : ∀ {K : Type} (keys : list K), map_range keys ≡ₚ keys
}.

(** [for k := range m { s = append(s, k) }] *)
Definition range_keys `{MapRange} `{Countable K} (m : gmap K ()) : list K :=
  map_range (map_to_list m).*1.

(** ** The bit cursor *)

(** The loop variables of the extraction: [idx] is [charIdx] or [wordIdx]. *)
Record cursor := Cursor { idx : Z; bitIdx : Z; byteIdx : Z }.

(** The body of the innermost loop (password.go, lines 77-87); [None] is the
    run-time panic of an index out of range. *)
Definition read_bit (buffer : list Z) (c : cursor) : option cursor :=
  let idx1 := Go.ushl (idx c) 1 in
  b ← buffer !! Z.to_nat (byteIdx c);
  let bit :=
    Z.shiftr (Z.land b (Z.shiftr 128 (bitIdx c mod 8)))
             (Go.usub 7 (bitIdx c mod 8)) in
  let idx2 := Z.lor idx1 bit in
  let bitIdx' := Go.uadd (bitIdx c) 1 in
  let byteIdx' :=
    if bitIdx' mod 8 =? 0 then Go.uadd (byteIdx c) 1 else byteIdx c in
  Some (Cursor idx2 bitIdx' byteIdx').

(** [for charBitIdx = 0; charBitIdx < bitsPerChar; charBitIdx++ { ... }] *)
Fixpoint read_bits (n : nat) (buffer : list Z) (c : cursor) : option cursor :=
  match n with
  | O => Some c
  | S n' => c' ← read_bit buffer c; read_bits n' buffer c'
  end.

(** [idx % uint(len(set))], which panics on a zero divisor. *)
Definition umod (a n : Z) : option Z :=
  if n =? 0 then None else Some (a mod n).

(** One symbol: the bits of its index, then the reduction (lines 76-91).
    Returns the index and the cursor with [idx] reset (line 97). *)
Definition next_index (bits size : Z) (buffer : list Z) (c : cursor)
  : option (Z * cursor) :=
  c' ← read_bits (Z.to_nat bits) buffer c;
  i ← umod (idx c') size;
  Some (i, Cursor 0 (bitIdx c') (byteIdx c')).

(** ** Package constants *)

(** The configured bounds and the casing selectors ([PassphraseCasing] is a
    [uint8]). *)
Class Constants := {
  PasswordCountMin : Z;
  PasswordCountMax : Z;
  PasswordLengthMin : Z;
  PasswordLengthMax : Z;
  PassphraseCountMin : Z;
  PassphraseCountMax : Z;
  PassphraseWordCountMin : Z;
  PassphraseWordCountMax : Z;
  PassphraseCasingLower : Z;
  PassphraseCasingUpper : Z;
  PassphraseCasingTitle : Z;
  PassphraseCasingNone : Z
}.

(** Modelled from the spec: the declaration of [AlphabetLengthMin] is not in
    the sources; the minimum number of unique symbols is fixed at 2 for both
    universes. *)
Definition AlphabetLengthMin : Z := 2.

(** Modelled from the spec: the declaration of [WordListLengthMin] is not in
    the sources; the minimum number of unique symbols is fixed at 2 for both
    universes. *)
Definition WordListLengthMin : Z := 2.

(** What a call leaves: the two results, or a run-time panic. *)
Inductive outcome : Type :=
  | Returns (out : list gostring) (err : option error)
  | Panics.

(** The bit plan (password.go, lines 46-51): bits per symbol, bits per
    artifact, bytes per artifact. *)
Definition bit_plan (size length : Z) : Z * Z * Z :=
  let bitsPerChar := Go.ceil_log2 size in
  let bitsPerPassword := Go.umul bitsPerChar length in
  let bytesPerPassword := bitsPerPassword / 8 in
  let bytesPerPassword :=
    if 0 <? bitsPerPassword mod 8 then Go.uadd bytesPerPassword 1
    else bytesPerPassword in
  (bitsPerChar, bitsPerPassword, bytesPerPassword).

Section Generators.
Context `{Constants} `{UnicodeTables} `{MapRange}.

(** *** password.go *)

(** Lines 30-37: the deduplicated alphabet. *)
Definition chars_of (alphabet : gostring) : gmap Z () :=
  foldl (λ chars char, <[char := ()]> chars) ∅ alphabet.

Definition charSet_of (alphabet : gostring) : list rune :=
  range_keys (chars_of alphabet).

(** Lines 75-98: the characters of one password, appended to the builder
    [b]; [n] iterations remain. *)
Fixpoint password_chars (n : nat) (charSet : list rune) (bitsPerChar : Z)
    (passwordBuffer : list Z) (c : cursor) (b : gostring) : option gostring :=
  match n with
  | O => Some b
  | S n' =>
      '(charIdx, c') ← next_index bitsPerChar (Go.len charSet) passwordBuffer c;
      char ← charSet !! Z.to_nat charIdx;
      password_chars n' charSet bitsPerChar passwordBuffer c' (b ++ [char])
  end.

(** Lines 59-105: [n] passwords remain to be generated. *)
Fixpoint password_loop `{Reader R} (n : nat) (length : Z) (charSet : list rune)
    (bitsPerChar bytesPerPassword : Z) (passwords : list gostring) (r : R)
    : outcome * R :=
  match n with
  | O => (Returns passwords None, r)
  | S n' =>
      match ReadFull r (Z.to_nat bytesPerPassword) with
      | (inl err, r') => (Returns [] (Some err), r')
      | (inr passwordBuffer, r') =>
          match password_chars (Z.to_nat length) charSet bitsPerChar
                  passwordBuffer (Cursor 0 0 0) [] with
          | None => (Panics, r')
          | Some password =>
              password_loop n' length charSet bitsPerChar bytesPerPassword
                (passwords ++ [password]) r'
          end
      end
  end.

Definition GeneratePasswords `{Reader R} (count length : Z)
    (alphabet : gostring) (r : R) : outcome * R :=
  if (count <? PasswordCountMin) || (PasswordCountMax <? count) then
    (Returns [] (Some (Errorf "count must be at least %d and at most %d"
                         [PasswordCountMin; PasswordCountMax])), r)
  else if (length <? PasswordLengthMin) || (PasswordLengthMax <? length) then
    (Returns [] (Some (Errorf "length must be at least %d and at most %d"
                         [PasswordLengthMin; PasswordLengthMax])), r)
  else
    let charSet := charSet_of alphabet in
    if Go.len charSet <? AlphabetLengthMin then
      (Returns [] (Some (Errorf "alphabet must contain at least %d unique characters"
                           [AlphabetLengthMin])), r)
    else
      let '(bitsPerChar, _, bytesPerPassword) :=
        bit_plan (Go.len charSet) length in
      password_loop (Z.to_nat count) length charSet bitsPerChar
        bytesPerPassword [] r.

(** *** passphrase.go *)

(** Lines 35-40. *)
Definition casing_known (casing : Z) : bool :=
  (casing =? PassphraseCasingLower) || (casing =? PassphraseCasingUpper)
  || (casing =? PassphraseCasingTitle) || (casing =? PassphraseCasingNone).

(** Lines 45-54: the word as the casing enters it in the map. *)
Definition add_word (casing : Z) (words : gmap (list Z) ()) (word : gostring)
  : gmap (list Z) () :=
  if casing =? PassphraseCasingLower then <[strings.ToLower word := ()]> words
  else if casing =? PassphraseCasingUpper then <[strings.ToUpper word := ()]> words
  else if casing =? PassphraseCasingTitle then <[strings.Title word := ()]> words
  else if casing =? PassphraseCasingNone then <[word := ()]> words
  else words.

(** Lines 43-59. *)
Definition words_of (casing : Z) (wordList : list gostring) : gmap (list Z) () :=
  foldl (add_word casing) ∅ wordList.

Definition wordSet_of (casing : Z) (wordList : list gostring) : list gostring :=
  range_keys (words_of casing wordList).

(** Lines 97-125: the words of one passphrase, appended to the builder [b];
    [n] iterations remain and [j] is the word counter. *)
Fixpoint passphrase_words (n : nat) (j wordCount : Z) (separator : rune)
    (wordSet : list gostring) (bitsPerWord : Z) (passphraseBuffer : list Z)
    (c : cursor) (b : gostring) : option gostring :=
  match n with
  | O => Some b
  | S n' =>
      '(wordIdx, c') ← next_index bitsPerWord (Go.len wordSet) passphraseBuffer c;
      word ← wordSet !! Z.to_nat wordIdx;
      let b := b ++ word in
      let b := if j <? Go.usub wordCount 1 then b ++ [separator] else b in
      passphrase_words n' (Go.uadd j 1) wordCount separator wordSet
        bitsPerWord passphraseBuffer c' b
  end.

(** Lines 81-132. *)
Fixpoint passphrase_loop `{Reader R} (n : nat) (wordCount : Z) (separator : rune)
    (wordSet : list gostring) (bitsPerWord bytesPerPassphrase : Z)
    (passphrases : list gostring) (r : R) : outcome * R :=
  match n with
  | O => (Returns passphrases None, r)
  | S n' =>
      match ReadFull r (Z.to_nat bytesPerPassphrase) with
      | (inl err, r') => (Returns [] (Some err), r')
      | (inr passphraseBuffer, r') =>
          match passphrase_words (Z.to_nat wordCount) 0 wordCount separator
                  wordSet bitsPerWord passphraseBuffer (Cursor 0 0 0) [] with
          | None => (Panics, r')
          | Some passphrase =>
              passphrase_loop n' wordCount separator wordSet bitsPerWord
                bytesPerPassphrase (passphrases ++ [passphrase]) r'
          end
      end
  end.

Definition GeneratePassphrases `{Reader R} (count wordCount : Z)
    (separator : rune) (casing : Z) (wordList : list gostring) (r : R)
    : outcome * R :=
  if (count <? PassphraseCountMin) || (PassphraseCountMax <? count) then
    (Returns [] (Some (Errorf "count must be at least %d and at most %d"
                         [PassphraseCountMin; PassphraseCountMax])), r)
  else if (wordCount <? PassphraseWordCountMin)
          || (PassphraseWordCountMax <? wordCount) then
    (Returns [] (Some (Errorf "word count must be at least %d and at most %d"
                         [PassphraseWordCountMin; PassphraseWordCountMax])), r)
  else if negb (casing_known casing) then
    (Returns [] (Some (Errorf "invalid word casing" [])), r)
  else
    let wordSet := wordSet_of casing wordList in
    if Go.len wordSet <? WordListLengthMin then
      (Returns [] (Some (Errorf "word list must contain at least %d unique words"
                           [WordListLengthMin])), r)
    else
      let '(bitsPerWord, _, bytesPerPassphrase) :=
        bit_plan (Go.len wordSet) wordCount in
      passphrase_loop (Z.to_nat count) wordCount separator wordSet
        bitsPerWord bytesPerPassphrase [] r.

(** *** Requests *)

(** The word as the selected casing transforms it. *)
Definition cased (casing : Z) (word : gostring) : gostring :=
  if casing =? PassphraseCasingLower then strings.ToLower word
  else if casing =? PassphraseCasingUpper then strings.ToUpper word
  else if casing =? PassphraseCasingTitle then strings.Title word
  else word.

(** The parameters are values of their Go types and pass every check of
    [GeneratePasswords]. *)
Definition password_request (count length : Z) (alphabet : gostring) : Prop :=
  0 ≤ count ∧ PasswordCountMin ≤ count ≤ PasswordCountMax
  ∧ 0 ≤ length ∧ PasswordLengthMin ≤ length ≤ PasswordLengthMax
  ∧ Go.len alphabet ≤ Go.MaxInt
  ∧ AlphabetLengthMin ≤ Go.len (charSet_of alphabet).

(** The parameters are values of their Go types and pass every check of
    [GeneratePassphrases]. *)
Definition passphrase_request (count wordCount casing : Z)
    (wordList : list gostring) : Prop :=
  0 ≤ count ∧ PassphraseCountMin ≤ count ≤ PassphraseCountMax
  ∧ 0 ≤ wordCount
  ∧ PassphraseWordCountMin ≤ wordCount ≤ PassphraseWordCountMax
  ∧ casing_known casing = true
  ∧ Go.len wordList ≤ Go.MaxInt
  ∧ WordListLengthMin ≤ Go.len (wordSet_of casing wordList).

(** The bits of the longest artifact are counted without overflow: a
    symbol takes at most 63 bits. *)
Definition bounds_fit : Prop :=
  63 * PasswordLengthMax < Go.uint_modulus
  ∧ 63 * PassphraseWordCountMax < Go.uint_modulus.

(** The selectors are different constants, as the cases of one [switch]
    have to be. *)
Definition selectors_distinct : Prop :=
  NoDup [PassphraseCasingLower; PassphraseCasingUpper;
         PassphraseCasingTitle; PassphraseCasingNone].

End Generators.

(** ** Instances the examples are run with *)

(** Modelled from the spec: the declarations of the bounds are not in the
    sources; these are the illustrative defaults (counts, lengths and word
    counts from 1 to 1000), with the selectors numbered in the order of the
    [switch]. *)
Definition spec_constants : Constants :=
  {| PasswordCountMin := 1; PasswordCountMax := 1000;
     PasswordLengthMin := 1; PasswordLengthMax := 1000;
     PassphraseCountMin := 1; PassphraseCountMax := 1000;
     PassphraseWordCountMin := 1; PassphraseWordCountMax := 1000;
     PassphraseCasingLower := 0; PassphraseCasingUpper := 1;
     PassphraseCasingTitle := 2; PassphraseCasingNone := 3 |}.

(** Tables that leave every rune outside ASCII as it is. *)
Definition ascii_tables : UnicodeTables :=
  {| unicode_To := λ _ r, r;
     unicode_IsLetter := λ _, false;
     unicode_IsDigit := λ _, false;
     unicode_IsSpace := λ _, false |}.

(** A [range] that visits the keys in the order of [map_to_list]. *)
Definition plain_range : MapRange :=
  {| map_range := λ K keys, keys;
     map_range_perm := λ K keys, reflexivity keys |}.

(** A source that never fails and records the length of every buffer it is
    asked to fill. *)
#[export] Instance recording_Reader : Reader (list nat) :=
  {| ReadFull := λ log n, (inr (replicate n 0), log ++ [n]);
     ReadFull_length := ltac:(
       intros log n buf log' [= <- _]; apply length_replicate) |}.

(** ** The extraction as the specification words it *)

Module Spec.

(** The bits of a byte, most significant first. *)
Definition byte_bits (b : Z) : list bool :=
  (λ k : nat, Z.testbit b (7 - Z.of_nat k)) <$> seq 0 8.

(** The buffer as a big-endian bitstream: bit 7 of byte 0 comes first. *)
Definition bitstream (buffer : list Z) : list bool :=
  buffer ≫= byte_bits.

(** An unsigned integer assembled from bits in the order read, by a left
    shift and an OR per bit. *)
Definition assemble (bits : list bool) : Z :=
  foldl (λ acc (b : bool), Z.lor (Z.shiftl acc 1) (Z.b2z b)) 0 bits.

(** Symbol [j] reads the [w] bits that start at bit [j * w]. *)
Definition symbol_bits (buffer : list Z) (w j : nat) : list bool :=
  take w (drop (j * w) (bitstream buffer)).

Definition index (buffer : list Z) (w : nat) (size : Z) (j : nat) : Z :=
  assemble (symbol_bits buffer w j) mod size.

Definition indices (buffer : list Z) (w : nat) (size : Z) (count : nat) : list Z :=
  index buffer w size <$> seq 0 count.

(** Words joined by one separator between consecutive words. *)
Fixpoint join (separator : rune) (words : list gostring) : gostring :=
  match words with
  | [] => []
  | [word] => word
  | word :: rest => word ++ separator :: join separator rest
  end.

(** ceil(a / b) for positive [b]. *)
Definition ceil_div (a b : Z) : Z := (a + b - 1) / b.

(** The artifacts as the indices select them from the universe. *)
Definition password (charSet : list rune) (length : nat) (buffer : list Z)
  : gostring :=
  (λ i, charSet !!! Z.to_nat i)
    <$> indices buffer (Z.to_nat (Go.ceil_log2 (Go.len charSet)))
          (Go.len charSet) length.

Definition passphrase_words (wordSet : list gostring) (wordCount : nat)
    (buffer : list Z) : list gostring :=
  (λ i, wordSet !!! Z.to_nat i)
    <$> indices buffer (Z.to_nat (Go.ceil_log2 (Go.len wordSet)))
          (Go.len wordSet) wordCount.

Definition passphrase (separator : rune) (wordSet : list gostring)
    (wordCount : nat) (buffer : list Z) : gostring :=
  join separator (passphrase_words wordSet wordCount buffer).

(** The [k]-th run of [size] bytes of a source. *)
Definition chunk (size k : nat) (src : list Z) : list Z :=
  take size (drop (k * size) src).

(** One artifact from each of the first [count] chunks. *)
Definition artifacts (f : list Z → gostring) (size count : nat) (src : list Z)
  : list gostring :=
  (λ k, f (chunk size k src)) <$> seq 0 count.

End Spec.

(** The error kinds of the specification, as the messages that tell them
    apart. *)
Definition OutOfRange (what : string) (lo hi : Z) : error :=
  errorString (what +:+ " must be at least " +:+ decimal lo
               +:+ " and at most " +:+ decimal hi).

Definition InvalidUniverse (what : string) (least : Z) (symbols : string) : error :=
  errorString (what +:+ " must contain at least " +:+ decimal least
               +:+ " unique " +:+ symbols).

Definition InvalidCasingPolicy : error := errorString "invalid word casing".



(** One artifact of each kind from its filled buffer: the inner part of the
    loop over artifacts. *)
Definition password_of (length : Z) (charSet : list rune) (bitsPerChar : Z)
    (passwordBuffer : list Z) : option gostring :=
  password_chars (Z.to_nat length) charSet bitsPerChar passwordBuffer
    (Cursor 0 0 0) [].

Definition passphrase_of (wordCount : Z) (separator : rune)
    (wordSet : list gostring) (bitsPerWord : Z) (passphraseBuffer : list Z)
    : option gostring :=
  passphrase_words (Z.to_nat wordCount) 0 wordCount separator wordSet
    bitsPerWord passphraseBuffer (Cursor 0 0 0) [].

(** The loop over artifacts, for either kind. *)
Fixpoint artifact_loop `{Reader R} (make : list Z → option gostring) (n : nat)
    (bytesPerArtifact : Z) (artifacts : list gostring) (r : R) : outcome * R :=
  match n with
  | O => (Returns artifacts None, r)
  | S n' =>
      match ReadFull r (Z.to_nat bytesPerArtifact) with
      | (inl err, r') => (Returns [] (Some err), r')
      | (inr buffer, r') =>
          match make buffer with
          | None => (Panics, r')
          | Some artifact =>
              artifact_loop make n' bytesPerArtifact (artifacts ++ [artifact]) r'
          end
      end
  end.

(** The cursor is where the loops keep it: the byte counter is the bit
    counter divided by eight. *)
Definition cursor_at (v : Z) (pos : nat) : cursor :=
  Cursor v (Z.of_nat pos) (Z.of_nat (pos / 8)).

(** ** The command line (cmd/passgen) *)

Module strconv.

Definition maxUint64 : Z := 2 ^ 64 - 1.

(** The smallest number whose product with the base 10 overflows. *)
Definition cutoff : Z := maxUint64 / 10 + 1.

(** The loop of [strconv.ParseUint(s, 10, 64)] from the value [n]; [None] is
    a syntax error or a range error, which the callers do not tell apart. *)
Fixpoint ParseUint_from (n : Z) (s : gostring) : option Z :=
  match s with
  | [] => Some n
  | c :: s' =>
      if (48 <=? c) && (c <=? 57) then
        let d := c - 48 in
        if cutoff <=? n then None
        else
          let n := Go.umul n 10 in
          let n1 := Go.uadd n d in
          if (n1 <? n) || (maxUint64 <? n1) then None
          else ParseUint_from n1 s'
      else None
  end.

Definition ParseUint (s : gostring) : option Z :=
  match s with
  | [] => None
  | _ => ParseUint_from 0 s
  end.

End strconv.

(** [uintMax = ^uint(0)] (main.go). *)
Definition uintMax : Z := Go.uint_modulus - 1.

(** The alphabets a command can be asked for by flags; their declarations
    are constants of the package. *)
Class Alphabets := {
  AlphabetLower : gostring;
  AlphabetLowerAmbiguous : gostring;
  AlphabetUpper : gostring;
  AlphabetUpperAmbiguous : gostring;
  AlphabetNumeric : gostring;
  AlphabetNumericAmbiguous : gostring;
  AlphabetSpecial : gostring;
  AlphabetDefault : gostring;
  AlphabetDefaultAmbiguous : gostring
}.

(** What a run of a command leaves: what it printed and the error it
    returned, or a run-time panic. *)
Inductive run : Type :=
  | Exits (stdout : gostring) (err : option error)
  | Crashes.

(** [fmt.Fprintln] of every artifact, one per line. *)
Definition print_lines (stdout : gostring) (artifacts : list gostring) : gostring :=
  foldl (λ out artifact, out ++ artifact ++ [10]) stdout artifacts.

(** The two positional arguments of either command
    (cmd/passgen/password.go, lines 49-95): the first is the length or the
    word count, the second the count.  Returns the error and the two values
    as the configuration holds them afterwards. *)
Definition parse_args (what : string) (first count : Z) (args : list gostring)
  : option error * Z * Z :=
  if 2 <? Go.len args then
    (Some (errorString "too many args provided"), first, count)
  else
    match args with
    | [] => (None, first, count)
    | arg0 :: rest =>
        match strconv.ParseUint arg0 with
        | None =>
            (Some (errorString ("invalid " +:+ what +:+ " provided")), first, count)
        | Some parsed =>
            if uintMax <? parsed then
              (Some (errorString ("invalid " +:+ what +:+ " provided")), first, count)
            else
              let first := parsed in
              match rest with
              | [] => (None, first, count)
              | arg1 :: _ =>
                  match strconv.ParseUint arg1 with
                  | None =>
                      (Some (errorString "invalid count provided"), first, count)
                  | Some parsed =>
                      if uintMax <? parsed then
                        (Some (errorString "invalid count provided"), first, count)
                      else (None, first, parsed)
                  end
              end
        end
    end.

Module passwordCmd.

(** [passwordConfig] once the flags are read. *)
Record config := Config {
  count : Z;
  length : Z;
  alphabet : gostring;
  allowUppercase : bool;
  allowLowercase : bool;
  allowNumeric : bool;
  allowSpecial : bool;
  allowAmbiguous : bool
}.

(** The [Args] function of the command. *)
Definition Args (cfg : config) (args : list gostring) : option error * config :=
  let '(err, length, count) := parse_args "length" (length cfg) (count cfg) args in
  (err, Config count length (alphabet cfg) (allowUppercase cfg)
          (allowLowercase cfg) (allowNumeric cfg) (allowSpecial cfg)
          (allowAmbiguous cfg)).

Section Run.
Context `{Constants} `{MapRange} `{Alphabets}.

(** Lines 100-175 of [RunE]: the alphabet the passwords are drawn from. *)
Definition chosen_alphabet (cfg : config) : gostring :=
  match alphabet cfg with
  | [] =>
      let b : gostring := [] in
      let b :=
        if allowLowercase cfg then
          if allowAmbiguous cfg then b ++ AlphabetLowerAmbiguous
          else b ++ AlphabetLower
        else b in
      let b :=
        if allowUppercase cfg then
          if allowAmbiguous cfg then b ++ AlphabetUpperAmbiguous
          else b ++ AlphabetUpper
        else b in
      let b :=
        if allowNumeric cfg then
          if allowAmbiguous cfg then b ++ AlphabetNumericAmbiguous
          else b ++ AlphabetNumeric
        else b in
      let b := if allowSpecial cfg then b ++ AlphabetSpecial else b in
      match b with
      | [] => if allowAmbiguous cfg then AlphabetDefaultAmbiguous
              else AlphabetDefault
      | _ => b
      end
  | custom => custom
  end.

(** The [RunE] function of the command. *)
Definition RunE `{Reader R} (cfg : config) (stdout : gostring) (r : R) : run * R :=
  match GeneratePasswords (count cfg) (length cfg) (chosen_alphabet cfg) r with
  | (Returns passwords None, r') => (Exits (print_lines stdout passwords) None, r')
  | (Returns _ (Some err), r') => (Exits stdout (Some err), r')
  | (Panics, r') => (Crashes, r')
  end.

End Run.
End passwordCmd.

Module passphraseCmd.

(** [passphraseConfig] once the flags are read. *)
Record config := Config {
  count : Z;
  wordCount : Z;
  separator : rune;
  casing : Z;
  wordList : list gostring;
  separatorString : gostring;
  casingLower : bool;
  casingUpper : bool;
  casingTitle : bool;
  casingNone : bool
}.

(** The [Args] function of the command. *)
Definition Args (cfg : config) (args : list gostring) : option error * config :=
  let '(err, wordCount, count) :=
    parse_args "word count" (wordCount cfg) (count cfg) args in
  (err, Config count wordCount (separator cfg) (casing cfg) (wordList cfg)
          (separatorString cfg) (casingLower cfg) (casingUpper cfg)
          (casingTitle cfg) (casingNone cfg)).

Section Run.
Context `{Constants} `{UnicodeTables} `{MapRange}.

(** Lines 114-120 of [RunE]: the separator, or the error. *)
Definition chosen_separator (cfg : config) : error + rune :=
  match separatorString cfg with
  | [] => inr (separator cfg)
  | first :: _ =>
      if 1 <? Go.len (separatorString cfg) then
        inl (errorString "separator must be a single character")
      else inr first
  end.

(** Lines 122-147 of [RunE]: the casing, or the error. *)
Definition chosen_casing (cfg : config) : error + Z :=
  let casing := casing cfg in
  let casingSet := false in
  let '(casing, casingSet) :=
    if casingLower cfg then (PassphraseCasingLower, true)
    else (casing, casingSet) in
  if casingUpper cfg && casingSet then
    inl (errorString "at most one casing method is allowed")
  else
    let '(casing, casingSet) :=
      if casingUpper cfg then (PassphraseCasingUpper, true)
      else (casing, casingSet) in
    if casingTitle cfg && casingSet then
      inl (errorString "at most one casing method is allowed")
    else
      let '(casing, casingSet) :=
        if casingTitle cfg then (PassphraseCasingTitle, true)
        else (casing, casingSet) in
      if casingNone cfg && casingSet then
        inl (errorString "at most one casing method is allowed")
      else
        inr (if casingNone cfg then PassphraseCasingNone else casing).

(** [unicode.IsSpace]. *)
Definition IsSpace (r : rune) : bool :=
  if r <=? 127 then
    (r =? 9) || (r =? 10) || (r =? 11) || (r =? 12) || (r =? 13) || (r =? 32)
  else unicode_IsSpace r.

(** [strings.TrimLeftFunc(s, unicode.IsSpace)]. *)
Fixpoint TrimLeft_space (s : gostring) : gostring :=
  match s with
  | [] => []
  | r :: s' => if IsSpace r then TrimLeft_space s' else s
  end.

(** [strings.TrimSpace]: the string without its leading and trailing white
    space. *)
Definition TrimSpace (s : gostring) : gostring :=
  reverse (TrimLeft_space (reverse (TrimLeft_space s))).

(** The [RunE] function of the command.  [file] is what opening and scanning
    the word-list file gives: nothing when no file is named, the error of
    [os.Open], or the lines of the scanner. *)
Definition RunE `{Reader R} (cfg : config) (file : option (error + list gostring))
    (stdout : gostring) (r : R) : run * R :=
  match chosen_separator cfg with
  | inl err => (Exits stdout (Some err), r)
  | inr separator =>
      match chosen_casing cfg with
      | inl err => (Exits stdout (Some err), r)
      | inr casing =>
          match file with
          | Some (inl err) => (Exits stdout (Some err), r)
          | _ =>
              let wordList :=
                match file with
                | Some (inr lines) => TrimSpace <$> lines
                | _ => wordList cfg
                end in
              match GeneratePassphrases (count cfg) (wordCount cfg) separator
                      casing wordList r with
              | (Returns passphrases None, r') =>
                  (Exits (print_lines stdout passphrases) None, r')
              | (Returns _ (Some err), r') => (Exits stdout (Some err), r')
              | (Panics, r') => (Crashes, r')
              end
          end
      end
  end.

End Run.
End passphraseCmd.

(** Alphabets the examples are run with: letters, digits and a few signs. *)
Definition example_alphabets : Alphabets :=
  {| AlphabetLower := runes "abcdefghijkmnopqrstuvwxyz";
     AlphabetLowerAmbiguous := runes "abcdefghijklmnopqrstuvwxyz";
     AlphabetUpper := runes "ABCDEFGHJKLMNPQRSTUVWXYZ";
     AlphabetUpperAmbiguous := runes "ABCDEFGHIJKLMNOPQRSTUVWXYZ";
     AlphabetNumeric := runes "23456789";
     AlphabetNumericAmbiguous := runes "0123456789";
     AlphabetSpecial := runes "!#$%&*+-=?@^_";
     AlphabetDefault := runes "abcdefghijkmnopqrstuvwxyz23456789";
     AlphabetDefaultAmbiguous := runes "abcdefghijklmnopqrstuvwxyz0123456789" |}.

(** ** Notions the properties of the command line are stated with *)

(** The value of a string of decimal digits read after the value [acc]. *)
Fixpoint decimal_value (acc : Z) (s : gostring) : Z :=
  match s with
  | [] => acc
  | c :: s' => decimal_value (acc * 10 + (c - 48)) s'
  end.

(** A non-empty string of decimal digits whose value fits 64 bits. *)
Definition numeral (s : gostring) : Prop :=
  s ≠ [] ∧ Forall (λ c, 48 ≤ c ≤ 57) s ∧ decimal_value 0 s ≤ strconv.maxUint64.

(** The number of casing flags that are set. *)
Definition casing_flags (cfg : passphraseCmd.config) : nat :=
  (Nat.b2n (passphraseCmd.casingLower cfg) + Nat.b2n (passphraseCmd.casingUpper cfg)
   + Nat.b2n (passphraseCmd.casingTitle cfg) + Nat.b2n (passphraseCmd.casingNone cfg))%nat.

(** * Properties *)

(** ** Bits *)

Lemma uint_modulus_eq : Go.uint_modulus = 18446744073709551616.
Proof. reflexivity. Qed.

Lemma wrap_small z : 0 ≤ z < Go.uint_modulus → Go.wrap z = z.
Proof. intros. unfold Go.wrap. by apply Z.mod_small. Qed.

Lemma mask_bit (b k : Z) :
  0 ≤ k < 8 →
  Z.shiftr (Z.land b (Z.shiftr 128 k)) (Go.usub 7 k) = Z.b2z (Z.testbit b (7 - k)).
Proof.
  intros Hk. unfold Go.usub. rewrite wrap_small by (rewrite uint_modulus_eq; lia).
  assert (Z.shiftr 128 k = 2 ^ (7 - k)) as ->.
  { assert (k = 0 ∨ k = 1 ∨ k = 2 ∨ k = 3 ∨ k = 4 ∨ k = 5 ∨ k = 6 ∨ k = 7)
      as Hc by lia.
    destruct Hc as [->|[->|[->|[->|[->|[->|[->| ->]]]]]]]; reflexivity. }
  apply Z.bits_inj'. intros i Hi.
  rewrite Z.shiftr_spec, Z.land_spec, Z.pow2_bits_eqb by lia.
  destruct (decide (i = 0)) as [->|Hne].
  - rewrite Z.add_0_l, Z.eqb_refl, andb_true_r.
    destruct (Z.testbit b (7 - k)); reflexivity.
  - replace (7 - k =? i + (7 - k)) with false by (symmetry; apply Z.eqb_neq; lia).
    rewrite andb_false_r.
    destruct (Z.testbit b (7 - k)); simpl.
    + symmetry. change 1 with (2 ^ 0). rewrite Z.pow2_bits_eqb by lia.
      apply Z.eqb_neq. lia.
    + symmetry. apply Z.bits_0.
Qed.

Lemma shift_or_bit (x : Z) (b : bool) :
  Z.lor (Z.shiftl x 1) (Z.b2z b) = 2 * x + Z.b2z b.
Proof.
  rewrite Z.shiftl_mul_pow2 by lia. change (2 ^ 1) with 2.
  rewrite Z.mul_comm. destruct b; simpl Z.b2z.
  - symmetry. apply Z.add_nocarry_lor.
    apply Z.bits_inj'. intros i Hi. rewrite Z.land_spec, Z.bits_0.
    destruct (decide (i = 0)) as [->|Hne].
    + rewrite Z.testbit_even_0. reflexivity.
    + change 1 with (2 ^ 0). rewrite Z.pow2_bits_eqb by lia.
      replace (0 =? i) with false by (symmetry; apply Z.eqb_neq; lia).
      apply andb_false_r.
  - rewrite Z.lor_0_r. lia.
Qed.

Lemma byte_bits_length b : length (Spec.byte_bits b) = 8%nat.
Proof. reflexivity. Qed.

Lemma bitstream_length buffer :
  length (Spec.bitstream buffer) = (8 * length buffer)%nat.
Proof.
  induction buffer as [|b buffer IH]; [done|].
  unfold Spec.bitstream in *. cbn [mbind list_bind].
  rewrite length_app, IH, byte_bits_length. simpl. lia.
Qed.

Lemma byte_bits_lookup b (i : nat) :
  (i < 8)%nat → Spec.byte_bits b !! i = Some (Z.testbit b (7 - Z.of_nat i)).
Proof.
  intros Hi. unfold Spec.byte_bits. rewrite list_lookup_fmap.
  rewrite lookup_seq_lt by done. reflexivity.
Qed.

(** Bit [i] of the stream is bit [7 - i mod 8] of byte [i / 8]. *)
Lemma bitstream_lookup buffer (i : nat) b :
  buffer !! (i / 8)%nat = Some b →
  Spec.bitstream buffer !! i = Some (Z.testbit b (7 - Z.of_nat (i mod 8))).
Proof.
  revert i. induction buffer as [|b0 buffer IH]; intros i Hb; [done|].
  unfold Spec.bitstream in *. cbn [mbind list_bind].
  destruct (decide (i < 8)%nat) as [Hlt|Hge].
  - rewrite lookup_app_l by (rewrite byte_bits_length; lia).
    rewrite Nat.div_small in Hb by done. injection Hb as ->.
    rewrite Nat.mod_small by done. by apply byte_bits_lookup.
  - rewrite lookup_app_r by (rewrite byte_bits_length; lia).
    rewrite byte_bits_length.
    assert (i = (i - 8) + 1 * 8)%nat as Hi by lia.
    rewrite Hi in Hb. rewrite Nat.div_add in Hb by lia.
    replace (i mod 8)%nat with ((i - 8) mod 8)%nat
      by (rewrite Hi at 2; rewrite Nat.Div0.mod_add; done).
    apply IH. rewrite Nat.add_1_r in Hb. exact Hb.
Qed.

(** ** The innermost loop *)

Lemma read_bit_spec buffer v (pos : nat) :
  0 ≤ v → 2 * v + 1 < Go.uint_modulus →
  (pos < 8 * length buffer)%nat →
  Z.of_nat pos + 1 < Go.uint_modulus →
  ∃ b, Spec.bitstream buffer !! pos = Some b ∧
       read_bit buffer (cursor_at v pos) =
         Some (cursor_at (Z.lor (Z.shiftl v 1) (Z.b2z b)) (S pos)).
Proof.
  intros Hv Hv2 Hpos Hmax.
  assert (pos / 8 < length buffer)%nat as Hbyte
    by (apply Nat.Div0.div_lt_upper_bound; lia).
  destruct (lookup_lt_is_Some_2 buffer (pos / 8)%nat Hbyte) as [byte Hbyte'].
  exists (Z.testbit byte (7 - Z.of_nat (pos mod 8))). split.
  { by apply bitstream_lookup. }
  unfold read_bit, cursor_at. cbn [idx bitIdx byteIdx].
  rewrite Nat2Z.id, Hbyte'. cbn [mbind option_bind].
  assert (Z.of_nat pos mod 8 = Z.of_nat (pos mod 8)) as Hmod
    by (rewrite Nat2Z.inj_mod; done).
  rewrite Hmod, mask_bit
    by (pose proof (Nat.mod_upper_bound pos 8); lia).
  unfold Go.ushl.
  rewrite (wrap_small (Z.shiftl v 1))
    by (rewrite Z.shiftl_mul_pow2 by lia; change (2 ^ 1) with 2; lia).
  unfold Go.uadd. rewrite (wrap_small (Z.of_nat pos + 1)) by lia.
  f_equal. f_equal; [lia|].
  replace (Z.of_nat pos + 1) with (Z.of_nat (S pos)) by lia.
  assert (Z.of_nat (S pos) mod 8 = Z.of_nat (S pos mod 8)) as ->
    by (rewrite Nat2Z.inj_mod; done).
  pose proof (Nat.div_mod_eq pos 8) as Hdm.
  pose proof (Nat.div_mod_eq (S pos) 8) as Hdm'.
  pose proof (Nat.mod_upper_bound pos 8).
  pose proof (Nat.mod_upper_bound (S pos) 8).
  destruct (Z.eqb_spec (Z.of_nat (S pos mod 8)) 0) as [Hz|Hz].
  - assert (S pos / 8 = S (pos / 8))%nat as -> by lia.
    rewrite wrap_small; [lia|].
    split; [lia|]. rewrite uint_modulus_eq in *. lia.
  - assert (S pos / 8 = pos / 8)%nat as -> by lia. done.
Qed.

Lemma foldl_shift_or_bounds (bits : list bool) (v : Z) :
  0 ≤ v →
  0 ≤ foldl (λ acc (b : bool), Z.lor (Z.shiftl acc 1) (Z.b2z b)) v bits
    < (v + 1) * 2 ^ Z.of_nat (length bits).
Proof.
  revert v. induction bits as [|b bits IH]; intros v Hv.
  - simpl. lia.
  - cbn [foldl length]. rewrite shift_or_bit.
    assert (0 ≤ Z.b2z b ≤ 1) by (destruct b; simpl; lia).
    specialize (IH (2 * v + Z.b2z b) ltac:(lia)).
    rewrite Nat2Z.inj_succ, Z.pow_succ_r by lia.
    assert (0 < 2 ^ Z.of_nat (length bits)) by (apply Z.pow_pos_nonneg; lia).
    nia.
Qed.

Lemma read_bits_spec buffer (k : nat) : ∀ v (pos : nat),
  0 ≤ v → (v + 1) * 2 ^ Z.of_nat k ≤ Go.uint_modulus →
  (pos + k ≤ 8 * length buffer)%nat →
  Z.of_nat (pos + k) < Go.uint_modulus →
  read_bits k buffer (cursor_at v pos) =
    Some (cursor_at
            (foldl (λ acc (b : bool), Z.lor (Z.shiftl acc 1) (Z.b2z b)) v
               (take k (drop pos (Spec.bitstream buffer))))
            (pos + k)).
Proof.
  induction k as [|k IH]; intros v pos Hv Hfit Hlen Hmax.
  - simpl. rewrite Nat.add_0_r. done.
  - rewrite Nat2Z.inj_succ, Z.pow_succ_r in Hfit by lia.
    assert (0 < 2 ^ Z.of_nat k) as Hpow by (apply Z.pow_pos_nonneg; lia).
    destruct (read_bit_spec buffer v pos) as (b & Hb & Hstep); [lia|nia|lia|lia|].
    cbn [read_bits]. rewrite Hstep. cbn [mbind option_bind].
    assert (0 ≤ Z.b2z b ≤ 1) as Hb01 by (destruct b; simpl; lia).
    rewrite IH; [|rewrite shift_or_bit; lia|rewrite shift_or_bit; nia|lia|lia].
    rewrite (drop_S _ _ _ Hb). cbn [take foldl].
    replace (S pos + k)%nat with (pos + S k)%nat by lia. done.
Qed.

(** ** One symbol *)

Lemma next_index_spec buffer (w : nat) (size : Z) (j : nat) :
  size ≠ 0 → (w ≤ 64)%nat →
  (S j * w ≤ 8 * length buffer)%nat →
  Z.of_nat (S j * w) < Go.uint_modulus →
  next_index (Z.of_nat w) size buffer (cursor_at 0 (j * w)) =
    Some (Spec.index buffer w size j, cursor_at 0 (S j * w)).
Proof.
  intros Hsize Hw Hlen Hmax. unfold next_index. rewrite Nat2Z.id.
  rewrite read_bits_spec; [|lia| |simpl in *; lia|simpl in *; lia].
  - cbn [mbind option_bind idx bitIdx byteIdx cursor_at].
    unfold umod. destruct (Z.eqb_spec size 0) as [?|_]; [done|].
    cbn [mbind option_bind]. unfold Spec.index, Spec.symbol_bits, Spec.assemble.
    replace (j * w + w)%nat with (S j * w)%nat by (simpl; lia). done.
  - rewrite Z.mul_1_l. unfold Go.uint_modulus, Go.uint_bits.
    apply Z.pow_le_mono_r; lia.
Qed.

Lemma index_range buffer w size j :
  0 < size → 0 ≤ Spec.index buffer w size j < size.
Proof. intros. unfold Spec.index. by apply Z.mod_pos_bound. Qed.

(** ** One artifact *)

Lemma password_chars_spec charSet buffer (w : nat) (m : nat) : ∀ (j : nat) b,
  charSet ≠ [] → (w ≤ 64)%nat →
  ((j + m) * w ≤ 8 * length buffer)%nat →
  Z.of_nat ((j + m) * w) < Go.uint_modulus →
  password_chars m charSet (Z.of_nat w) buffer (cursor_at 0 (j * w)) b =
    Some (b ++ ((λ i, charSet !!! Z.to_nat (Spec.index buffer w (Go.len charSet) i))
                  <$> seq j m)).
Proof.
  induction m as [|m IH]; intros j b Hne Hw Hlen Hmax.
  - simpl. by rewrite app_nil_r.
  - assert (0 < Go.len charSet) as Hsize
      by (unfold Go.len; destruct charSet; simpl; [done|lia]).
    cbn [password_chars].
    rewrite next_index_spec; [|lia|done|nia|nia].
    cbn [mbind option_bind].
    pose proof (index_range buffer w (Go.len charSet) j Hsize) as Hidx.
    rewrite (list_lookup_lookup_total_lt charSet
               (Z.to_nat (Spec.index buffer w (Go.len charSet) j)))
      by (unfold Go.len in *; lia).
    cbn [mbind option_bind].
    rewrite IH; [|done|done|nia|nia].
    cbn [seq fmap list_fmap]. rewrite <- app_assoc. done.
Qed.

Lemma join_words_spec (separator : rune) (word : nat → gostring) (wordCount : Z)
    (m : nat) : ∀ j : nat,
  Z.of_nat (j + m) = wordCount →
  concat ((λ i, word i ++ (if Z.of_nat i <? wordCount - 1 then [separator] else []))
            <$> seq j m) =
    Spec.join separator (word <$> seq j m).
Proof.
  induction m as [|m IH]; intros j Hwc; [done|].
  cbn [seq fmap list_fmap concat]. rewrite IH by lia.
  destruct m as [|m].
  - cbn [seq fmap list_fmap Spec.join].
    destruct (Z.ltb_spec (Z.of_nat j) (wordCount - 1)); [lia|].
    by rewrite !app_nil_r.
  - destruct (Z.ltb_spec (Z.of_nat j) (wordCount - 1)); [|lia].
    cbn [seq fmap list_fmap Spec.join]. by rewrite <- app_assoc.
Qed.

Lemma passphrase_words_spec wordSet buffer separator wordCount (w : nat) (m : nat) :
  ∀ (j : nat) b,
  wordSet ≠ [] → (w ≤ 64)%nat →
  1 ≤ wordCount < Go.uint_modulus →
  Z.of_nat (j + m) ≤ wordCount →
  ((j + m) * w ≤ 8 * length buffer)%nat →
  Z.of_nat ((j + m) * w) < Go.uint_modulus →
  passphrase_words m (Z.of_nat j) wordCount separator wordSet (Z.of_nat w)
      buffer (cursor_at 0 (j * w)) b =
    Some (b ++ concat
            ((λ i, wordSet !!! Z.to_nat (Spec.index buffer w (Go.len wordSet) i)
                   ++ (if Z.of_nat i <? wordCount - 1 then [separator] else []))
               <$> seq j m)).
Proof.
  induction m as [|m IH]; intros j b Hne Hw Hwc Hj Hlen Hmax.
  - simpl. by rewrite app_nil_r.
  - assert (0 < Go.len wordSet) as Hsize
      by (unfold Go.len; destruct wordSet; simpl; [done|lia]).
    cbn [passphrase_words].
    rewrite next_index_spec; [|lia|done|nia|nia].
    cbn [mbind option_bind].
    pose proof (index_range buffer w (Go.len wordSet) j Hsize) as Hidx.
    rewrite (list_lookup_lookup_total_lt wordSet
               (Z.to_nat (Spec.index buffer w (Go.len wordSet) j)))
      by (unfold Go.len in *; lia).
    cbn [mbind option_bind].
    unfold Go.usub, Go.uadd.
    rewrite (wrap_small (wordCount - 1)) by lia.
    rewrite (wrap_small (Z.of_nat j + 1)) by lia.
    replace (Z.of_nat j + 1) with (Z.of_nat (S j)) by lia.
    destruct (Z.of_nat j <? wordCount - 1) eqn:Hsep.
    + rewrite IH; [|done|done|done|lia|nia|nia].
      cbn [seq fmap list_fmap concat]. rewrite Hsep. by rewrite <- !app_assoc.
    + rewrite IH; [|done|done|done|lia|nia|nia].
      cbn [seq fmap list_fmap concat]. rewrite Hsep.
      by rewrite app_nil_r, <- !app_assoc.
Qed.

(** ** The bit plan *)

Lemma ceil_log2_bounds size :
  2 ≤ size ≤ Go.MaxInt →
  1 ≤ Go.ceil_log2 size ≤ 63
  ∧ 2 ^ (Go.ceil_log2 size - 1) < size ≤ 2 ^ Go.ceil_log2 size.
Proof.
  unfold Go.MaxInt, Go.ceil_log2. intros [Hlo Hhi].
  pose proof (Z.log2_up_spec size ltac:(lia)) as Hspec.
  rewrite <- Z.sub_1_r in Hspec.
  assert (Z.log2_up size ≤ 63) by (apply Z.log2_up_le_pow2; lia).
  assert (0 < Z.log2_up size) by (apply Z.log2_up_pos; lia).
  lia.
Qed.

Lemma bit_plan_spec size length :
  2 ≤ size ≤ Go.MaxInt → 0 ≤ length → 63 * length < Go.uint_modulus →
  bit_plan size length =
    (Go.ceil_log2 size, Go.ceil_log2 size * length,
     Spec.ceil_div (Go.ceil_log2 size * length) 8).
Proof.
  intros Hsize Hlen Hfit. destruct (ceil_log2_bounds size Hsize) as [Hw _].
  unfold bit_plan, Go.umul, Go.uadd, Spec.ceil_div.
  set (w := Go.ceil_log2 size) in *.
  assert (0 ≤ w * length < Go.uint_modulus) as Hbits by nia.
  rewrite (wrap_small (w * length)) by done.
  set (bits := w * length) in *.
  pose proof (Z.div_mod bits 8 ltac:(lia)) as Hdm.
  pose proof (Z.mod_pos_bound bits 8 ltac:(lia)) as Hm.
  f_equal.
  destruct (Z.ltb_spec 0 (bits mod 8)).
  - rewrite wrap_small by (rewrite uint_modulus_eq in *; lia).
    apply Z.div_unique with (bits mod 8 - 1); lia.
  - apply Z.div_unique with 7; lia.
Qed.

(** The buffer of the plan holds every bit the extraction reads. *)
Lemma ceil_div_8_covers bits : 0 ≤ bits →
  bits ≤ 8 * Spec.ceil_div bits 8 < bits + 8.
Proof.
  intros. unfold Spec.ceil_div.
  pose proof (Z.div_mod (bits + 8 - 1) 8 ltac:(lia)).
  pose proof (Z.mod_pos_bound (bits + 8 - 1) 8 ltac:(lia)). lia.
Qed.

(** ** The loop over artifacts *)

Lemma password_loop_artifact `{Reader R} n length charSet bitsPerChar
    bytesPerPassword : ∀ passwords (r : R),
  password_loop n length charSet bitsPerChar bytesPerPassword passwords r =
    artifact_loop (password_of length charSet bitsPerChar) n bytesPerPassword
      passwords r.
Proof.
  induction n as [|n IH]; intros passwords r; [done|].
  cbn [password_loop artifact_loop].
  destruct (ReadFull r (Z.to_nat bytesPerPassword)) as [[err|buffer] r']; [done|].
  unfold password_of at 1.
  destruct (password_chars _ _ _ _ _ _); [apply IH|done].
Qed.

Lemma passphrase_loop_artifact `{Reader R} n wordCount separator wordSet
    bitsPerWord bytesPerPassphrase : ∀ passphrases (r : R),
  passphrase_loop n wordCount separator wordSet bitsPerWord bytesPerPassphrase
      passphrases r =
    artifact_loop (passphrase_of wordCount separator wordSet bitsPerWord) n
      bytesPerPassphrase passphrases r.
Proof.
  induction n as [|n IH]; intros passphrases r; [done|].
  cbn [passphrase_loop artifact_loop].
  destruct (ReadFull r (Z.to_nat bytesPerPassphrase)) as [[err|buffer] r']; [done|].
  unfold passphrase_of at 1.
  destruct (passphrase_words _ _ _ _ _ _ _ _ _); [apply IH|done].
Qed.

(** Whatever the source does, the loop ends with all the artifacts and no
    error, or with the error of the source and nothing else. *)
Lemma artifact_loop_cases `{Reader R} (make : list Z → option gostring)
    (P : gostring → Prop) (n : nat) (bytesPerArtifact : Z) :
  (∀ buffer, length buffer = Z.to_nat bytesPerArtifact →
     ∃ artifact, make buffer = Some artifact ∧ P artifact) →
  ∀ artifacts (r : R),
  (∃ new, (artifact_loop make n bytesPerArtifact artifacts r).1
            = Returns (artifacts ++ new) None
          ∧ length new = n ∧ Forall P new)
  ∨ (∃ err, (artifact_loop make n bytesPerArtifact artifacts r).1
              = Returns [] (Some err)).
Proof.
  intros Hmake. induction n as [|n IH]; intros artifacts r.
  - left. exists []. by rewrite app_nil_r.
  - cbn [artifact_loop].
    destruct (ReadFull r (Z.to_nat bytesPerArtifact)) as [[err|buffer] r'] eqn:Hread.
    + right. by exists err.
    + apply ReadFull_length in Hread.
      destruct (Hmake buffer Hread) as (artifact & -> & HP).
      destruct (IH (artifacts ++ [artifact]) r') as [(new & Hres & Hlen & Hall)|Herr].
      * left. exists (artifact :: new). rewrite Hres.
        split; [by rewrite <- app_assoc|]. split; [simpl; lia|by constructor].
      * by right.
Qed.

(** With [bytes.Reader] as the source and enough bytes left, artifact [k] is
    made from the [k]-th chunk of the source. *)
Lemma artifact_loop_bytes (make : list Z → option gostring)
    (f : list Z → gostring) (bytesPerArtifact : Z) (n : nat) :
  (∀ buffer, length buffer = Z.to_nat bytesPerArtifact →
     make buffer = Some (f buffer)) →
  ∀ artifacts (src : list Z),
  (n * Z.to_nat bytesPerArtifact ≤ length src)%nat →
  artifact_loop make n bytesPerArtifact artifacts src =
    (Returns (artifacts ++ Spec.artifacts f (Z.to_nat bytesPerArtifact) n src) None,
     drop (n * Z.to_nat bytesPerArtifact) src).
Proof.
  intros Hmake. set (B := Z.to_nat bytesPerArtifact) in *.
  induction n as [|n IH]; intros artifacts src Hlen.
  - simpl. unfold Spec.artifacts. simpl. by rewrite app_nil_r.
  - cbn [artifact_loop]. fold B.
    assert (ReadFull src B = (inr (take B src), drop B src)) as ->.
    { cbn [ReadFull bytes_Reader]. unfold bytes_ReadFull.
      repeat case_decide; try done; try (simpl in Hlen; lia).
      replace B with 0%nat by done. by rewrite take_0, drop_0. }
    rewrite Hmake by (rewrite length_take; simpl in Hlen; lia).
    rewrite IH by (rewrite length_drop; simpl in Hlen; lia).
    rewrite drop_drop. f_equal. rewrite <- app_assoc. f_equal.
    unfold Spec.artifacts, Spec.chunk. cbn [seq fmap list_fmap app].
    rewrite Nat.mul_0_l, drop_0. f_equal.
    rewrite <- fmap_S_seq, <- list_fmap_compose. f_equal.
    apply list_fmap_ext. intros _ k _. simpl.
    rewrite drop_drop. repeat f_equal; lia.
Qed.


(** ** One artifact from a buffer of the plan *)

Lemma plan_covers (w length : Z) (buffer : list Z) :
  1 ≤ w ≤ 63 → 0 ≤ length → 63 * length < Go.uint_modulus →
  Datatypes.length buffer = Z.to_nat (Spec.ceil_div (w * length) 8) →
  (Z.to_nat length * Z.to_nat w ≤ 8 * Datatypes.length buffer)%nat
  ∧ Z.of_nat (Z.to_nat length * Z.to_nat w) < Go.uint_modulus.
Proof.
  intros Hw Hlen Hfit Hbuf.
  pose proof (ceil_div_8_covers (w * length) ltac:(nia)) as Hc.
  rewrite Hbuf. split; [|nia].
  apply Nat2Z.inj_le. rewrite !Nat2Z.inj_mul, !Z2Nat.id by lia. simpl. lia.
Qed.

Lemma password_of_spec charSet length buffer :
  2 ≤ Go.len charSet ≤ Go.MaxInt → 0 ≤ length →
  63 * length < Go.uint_modulus →
  Datatypes.length buffer =
    Z.to_nat (Spec.ceil_div (Go.ceil_log2 (Go.len charSet) * length) 8) →
  password_of length charSet (Go.ceil_log2 (Go.len charSet)) buffer =
    Some (Spec.password charSet (Z.to_nat length) buffer).
Proof.
  intros Hsize Hlen Hfit Hbuf.
  destruct (ceil_log2_bounds _ Hsize) as [Hw _].
  destruct (plan_covers _ _ _ Hw Hlen Hfit Hbuf) as [Hcov Hmax].
  unfold password_of, Spec.password, Spec.indices.
  set (w := Go.ceil_log2 (Go.len charSet)) in *.
  rewrite <- (Z2Nat.id w) at 1 by lia.
  change (Cursor 0 0 0) with (cursor_at 0 (0 * Z.to_nat w)).
  rewrite password_chars_spec; [|..|simpl; lia|simpl; lia].
  - by rewrite app_nil_l, <- list_fmap_compose.
  - intros ->. unfold Go.len in Hsize. simpl in Hsize. lia.
  - lia.
Qed.

Lemma passphrase_of_spec wordSet wordCount separator buffer :
  2 ≤ Go.len wordSet ≤ Go.MaxInt → 0 ≤ wordCount →
  63 * wordCount < Go.uint_modulus →
  length buffer =
    Z.to_nat (Spec.ceil_div (Go.ceil_log2 (Go.len wordSet) * wordCount) 8) →
  passphrase_of wordCount separator wordSet (Go.ceil_log2 (Go.len wordSet))
      buffer =
    Some (Spec.passphrase separator wordSet (Z.to_nat wordCount) buffer).
Proof.
  intros Hsize Hlen Hfit Hbuf.
  destruct (ceil_log2_bounds _ Hsize) as [Hw _].
  destruct (plan_covers _ _ _ Hw Hlen Hfit Hbuf) as [Hcov Hmax].
  unfold passphrase_of, Spec.passphrase, Spec.passphrase_words, Spec.indices.
  set (w := Go.ceil_log2 (Go.len wordSet)) in *.
  destruct (decide (wordCount = 0)) as [->|Hpos]; [done|].
  rewrite <- (Z2Nat.id w) at 1 by lia.
  change (Cursor 0 0 0) with (cursor_at 0 (0 * Z.to_nat w)).
  change 0 with (Z.of_nat 0) at 1.
  rewrite passphrase_words_spec; [|..|simpl; lia|simpl; lia].
  - rewrite app_nil_l. f_equal.
    rewrite <- list_fmap_compose.
    apply (join_words_spec separator
             (λ i, wordSet !!! Z.to_nat
                     (Spec.index buffer (Z.to_nat w) (Go.len wordSet) i))).
    simpl. lia.
  - intros ->. unfold Go.len in Hsize. simpl in Hsize. lia.
  - lia.
  - rewrite uint_modulus_eq in *. lia.
  - simpl. lia.
Qed.

(** ** The universe *)

Lemma foldl_insert_lookup `{Countable K} (keys : list K) : ∀ (m : gmap K ()) k,
  foldl (λ m key, <[key := ()]> m) m keys !! k = Some ()
  ↔ k ∈ keys ∨ m !! k = Some ().
Proof.
  induction keys as [|key keys IH]; intros m k; cbn [foldl].
  - rewrite elem_of_nil. tauto.
  - rewrite IH, elem_of_cons. destruct (decide (key = k)) as [->|Hne].
    + rewrite lookup_insert_eq. tauto.
    + rewrite lookup_insert_ne by done. split; [tauto|].
      intros [[Heq|?]|?]; [congruence|tauto|tauto].
Qed.

Lemma range_keys_elem `{MapRange} `{Countable K} (m : gmap K ()) k :
  k ∈ range_keys m ↔ m !! k = Some ().
Proof.
  unfold range_keys. rewrite map_range_perm, list_elem_of_fmap. split.
  - intros ([k' []] & -> & Hin). by apply elem_of_map_to_list in Hin.
  - intros Hk. exists (k, ()). split; [done|]. by apply elem_of_map_to_list.
Qed.

Lemma range_keys_NoDup `{MapRange} `{Countable K} (m : gmap K ()) :
  NoDup (range_keys m).
Proof.
  unfold range_keys. rewrite map_range_perm. apply NoDup_fst_map_to_list.
Qed.

Lemma NoDup_incl_len {A} (l k : list A) :
  NoDup l → (∀ x, x ∈ l → x ∈ k) → Go.len l ≤ Go.len k.
Proof.
  intros Hnd Hin. unfold Go.len. apply Nat2Z.inj_le.
  apply submseteq_length. by apply NoDup_submseteq.
Qed.

Section Universe.
Context `{Constants} `{UnicodeTables} `{MapRange}.

Lemma charSet_of_elem alphabet c : c ∈ charSet_of alphabet ↔ c ∈ alphabet.
Proof.
  unfold charSet_of, chars_of. rewrite range_keys_elem, foldl_insert_lookup.
  rewrite lookup_empty. split; [intros [?|?]; done|tauto].
Qed.

Lemma charSet_of_NoDup alphabet : NoDup (charSet_of alphabet).
Proof. apply range_keys_NoDup. Qed.

Lemma charSet_of_len alphabet :
  Go.len (charSet_of alphabet) ≤ Go.len alphabet.
Proof.
  apply NoDup_incl_len; [apply charSet_of_NoDup|].
  intros c. by rewrite charSet_of_elem.
Qed.

Lemma add_word_cased casing words word :
  casing_known casing = true →
  add_word casing words word = <[cased casing word := ()]> words.
Proof.
  unfold casing_known, add_word, cased.
  destruct (casing =? PassphraseCasingLower); [done|].
  destruct (casing =? PassphraseCasingUpper); [done|].
  destruct (casing =? PassphraseCasingTitle); [done|].
  destruct (casing =? PassphraseCasingNone); done.
Qed.

Lemma words_of_cased casing wordList :
  casing_known casing = true →
  words_of casing wordList =
    foldl (λ m key, <[key := ()]> m) ∅ (cased casing <$> wordList).
Proof.
  intros Hk. unfold words_of. rewrite foldl_fmap.
  generalize (∅ : gmap (list Z) ()).
  induction wordList as [|word wordList IH]; intros m; [done|].
  cbn [foldl]. rewrite add_word_cased by done. apply IH.
Qed.

Lemma wordSet_of_elem casing wordList w :
  casing_known casing = true →
  w ∈ wordSet_of casing wordList ↔ w ∈ cased casing <$> wordList.
Proof.
  intros Hk. unfold wordSet_of.
  rewrite range_keys_elem, words_of_cased, foldl_insert_lookup by done.
  rewrite lookup_empty. split; [intros [?|?]; done|tauto].
Qed.

Lemma wordSet_of_NoDup casing wordList : NoDup (wordSet_of casing wordList).
Proof. apply range_keys_NoDup. Qed.

Lemma wordSet_of_len casing wordList :
  casing_known casing = true →
  Go.len (wordSet_of casing wordList) ≤ Go.len wordList.
Proof.
  intros Hk. etrans.
  - apply (NoDup_incl_len _ (cased casing <$> wordList));
      [apply wordSet_of_NoDup|].
    intros w. by rewrite wordSet_of_elem.
  - unfold Go.len. by rewrite length_fmap.
Qed.

(** *** The calls that pass validation *)

Lemma GeneratePasswords_valid `{Reader R} count length alphabet (r : R) :
  password_request count length alphabet → bounds_fit →
  GeneratePasswords count length alphabet r =
    artifact_loop
      (password_of length (charSet_of alphabet)
         (Go.ceil_log2 (Go.len (charSet_of alphabet))))
      (Z.to_nat count)
      (Spec.ceil_div (Go.ceil_log2 (Go.len (charSet_of alphabet)) * length) 8)
      [] r.
Proof.
  intros (Hc0 & Hc & Hl0 & Hl & Hint & Huniq) [Hfit _].
  unfold GeneratePasswords.
  destruct (Z.ltb_spec count PasswordCountMin); [lia|].
  destruct (Z.ltb_spec PasswordCountMax count); [lia|].
  destruct (Z.ltb_spec length PasswordLengthMin); [lia|].
  destruct (Z.ltb_spec PasswordLengthMax length); [lia|].
  cbn [orb].
  destruct (Z.ltb_spec (Go.len (charSet_of alphabet)) AlphabetLengthMin); [lia|].
  pose proof (charSet_of_len alphabet).
  unfold AlphabetLengthMin in *.
  rewrite bit_plan_spec by lia.
  apply password_loop_artifact.
Qed.

Lemma GeneratePassphrases_valid `{Reader R} count wordCount separator casing
    wordList (r : R) :
  passphrase_request count wordCount casing wordList → bounds_fit →
  GeneratePassphrases count wordCount separator casing wordList r =
    artifact_loop
      (passphrase_of wordCount separator (wordSet_of casing wordList)
         (Go.ceil_log2 (Go.len (wordSet_of casing wordList))))
      (Z.to_nat count)
      (Spec.ceil_div
         (Go.ceil_log2 (Go.len (wordSet_of casing wordList)) * wordCount) 8)
      [] r.
Proof.
  intros (Hc0 & Hc & Hl0 & Hl & Hk & Hint & Huniq) [_ Hfit].
  unfold GeneratePassphrases.
  destruct (Z.ltb_spec count PassphraseCountMin); [lia|].
  destruct (Z.ltb_spec PassphraseCountMax count); [lia|].
  destruct (Z.ltb_spec wordCount PassphraseWordCountMin); [lia|].
  destruct (Z.ltb_spec PassphraseWordCountMax wordCount); [lia|].
  cbn [orb]. rewrite Hk. cbn [negb].
  destruct (Z.ltb_spec (Go.len (wordSet_of casing wordList)) WordListLengthMin);
    [lia|].
  pose proof (wordSet_of_len casing wordList Hk).
  unfold WordListLengthMin in *.
  rewrite bit_plan_spec by lia.
  apply passphrase_loop_artifact.
Qed.

(** The buffer of a valid request makes an artifact, whatever bytes fill it. *)
Lemma password_of_valid count length alphabet buffer :
  password_request count length alphabet → bounds_fit →
  Datatypes.length buffer =
    Z.to_nat (Spec.ceil_div
                (Go.ceil_log2 (Go.len (charSet_of alphabet)) * length) 8) →
  password_of length (charSet_of alphabet)
      (Go.ceil_log2 (Go.len (charSet_of alphabet))) buffer =
    Some (Spec.password (charSet_of alphabet) (Z.to_nat length) buffer).
Proof.
  intros (Hc0 & Hc & Hl0 & Hl & Hint & Huniq) [Hfit _] Hbuf.
  pose proof (charSet_of_len alphabet). unfold AlphabetLengthMin in *.
  apply password_of_spec; [lia|lia|lia|done].
Qed.

Lemma passphrase_of_valid count wordCount separator casing wordList buffer :
  passphrase_request count wordCount casing wordList → bounds_fit →
  Datatypes.length buffer =
    Z.to_nat (Spec.ceil_div
                (Go.ceil_log2 (Go.len (wordSet_of casing wordList)) * wordCount)
                8) →
  passphrase_of wordCount separator (wordSet_of casing wordList)
      (Go.ceil_log2 (Go.len (wordSet_of casing wordList))) buffer =
    Some (Spec.passphrase separator (wordSet_of casing wordList)
            (Z.to_nat wordCount) buffer).
Proof.
  intros (Hc0 & Hc & Hl0 & Hl & Hk & Hint & Huniq) [_ Hfit] Hbuf.
  pose proof (wordSet_of_len casing wordList Hk). unfold WordListLengthMin in *.
  apply passphrase_of_spec; [lia|lia|lia|done].
Qed.

End Universe.

(** ** What the artifacts are made of *)

Lemma indices_in_range buffer w size count :
  0 < size → Forall (λ i, 0 ≤ i < size) (Spec.indices buffer w size count).
Proof.
  intros Hsize. unfold Spec.indices. apply Forall_fmap, Forall_forall.
  intros j _. by apply index_range.
Qed.

Lemma selected_in_universe {A} `{!Inhabited A} (universe : list A) (selected : list Z) :
  Forall (λ i, 0 ≤ i < Go.len universe) selected →
  Forall (λ x, x ∈ universe) ((λ i, universe !!! Z.to_nat i) <$> selected).
Proof.
  intros Hall. apply Forall_fmap. eapply Forall_impl; [exact Hall|].
  intros i Hi. simpl. apply list_elem_of_lookup_total_2. unfold Go.len in Hi. lia.
Qed.

Lemma password_symbols charSet length buffer :
  0 < Go.len charSet →
  Datatypes.length (Spec.password charSet length buffer) = length
  ∧ Forall (λ c, c ∈ charSet) (Spec.password charSet length buffer).
Proof.
  intros Hsize. unfold Spec.password. split.
  - unfold Spec.indices. by rewrite !length_fmap, length_seq.
  - by apply selected_in_universe, indices_in_range.
Qed.

Lemma passphrase_symbols wordSet wordCount buffer :
  0 < Go.len wordSet →
  Datatypes.length (Spec.passphrase_words wordSet wordCount buffer) = wordCount
  ∧ Forall (λ w, w ∈ wordSet) (Spec.passphrase_words wordSet wordCount buffer).
Proof.
  intros Hsize. unfold Spec.passphrase_words. split.
  - unfold Spec.indices. by rewrite !length_fmap, length_seq.
  - by apply selected_in_universe, indices_in_range.
Qed.

Lemma next_index_range bits size buffer c i c' :
  0 < size → next_index bits size buffer c = Some (i, c') → 0 ≤ i < size.
Proof.
  intros Hsize. unfold next_index, umod.
  destruct (read_bits _ _ _) as [c1|]; [|done]. cbn [mbind option_bind].
  destruct (Z.eqb_spec size 0); [lia|]. cbn [mbind option_bind].
  intros [= <- _]. by apply Z.mod_pos_bound.
Qed.

(** ** More on the loop over artifacts *)

Lemma artifact_loop_error `{Reader R} make n bytesPerArtifact :
  ∀ artifacts (r : R) out err,
  (artifact_loop make n bytesPerArtifact artifacts r).1 = Returns out (Some err) →
  out = [].
Proof.
  induction n as [|n IH]; intros artifacts r out err; cbn [artifact_loop].
  - done.
  - destruct (ReadFull r (Z.to_nat bytesPerArtifact)) as [[e|buffer] r'].
    + by intros [= <- _].
    + destruct (make buffer); [apply IH|done].
Qed.

Lemma artifact_loop_requests make n bytesPerArtifact :
  (∀ buffer, Datatypes.length buffer = Z.to_nat bytesPerArtifact →
     is_Some (make buffer)) →
  ∀ artifacts (log : list nat),
  (artifact_loop make n bytesPerArtifact artifacts log).2 =
    log ++ replicate n (Z.to_nat bytesPerArtifact).
Proof.
  intros Hmake. induction n as [|n IH]; intros artifacts log.
  - simpl. by rewrite app_nil_r.
  - cbn [artifact_loop ReadFull recording_Reader].
    destruct (Hmake (replicate (Z.to_nat bytesPerArtifact) 0)) as [artifact ->];
      [apply length_replicate|].
    rewrite IH, <- app_assoc. done.
Qed.

(** ** Messages *)

Lemma string_app_empty (s : string) : (s +:+ EmptyString)%string = s.
Proof.
  induction s as [|c s IH]; [done|].
  change (String c (s +:+ EmptyString)%string = String c s). by rewrite IH.
Qed.

Lemma Errorf_count lo hi :
  Errorf "count must be at least %d and at most %d" [lo; hi]
  = OutOfRange "count" lo hi.
Proof.
  unfold Errorf, OutOfRange. cbn [Sprintf]. by rewrite string_app_empty.
Qed.

Lemma Errorf_length lo hi :
  Errorf "length must be at least %d and at most %d" [lo; hi]
  = OutOfRange "length" lo hi.
Proof.
  unfold Errorf, OutOfRange. cbn [Sprintf]. by rewrite string_app_empty.
Qed.

Lemma Errorf_word_count lo hi :
  Errorf "word count must be at least %d and at most %d" [lo; hi]
  = OutOfRange "word count" lo hi.
Proof.
  unfold Errorf, OutOfRange. cbn [Sprintf]. by rewrite string_app_empty.
Qed.

Lemma Errorf_alphabet least :
  Errorf "alphabet must contain at least %d unique characters" [least]
  = InvalidUniverse "alphabet" least "characters".
Proof. reflexivity. Qed.

Lemma Errorf_word_list least :
  Errorf "word list must contain at least %d unique words" [least]
  = InvalidUniverse "word list" least "words".
Proof. reflexivity. Qed.

Lemma Errorf_casing : Errorf "invalid word casing" [] = InvalidCasingPolicy.
Proof. reflexivity. Qed.

(** ** Joined words *)









(** ** The checks of the parameters *)

Section Validation.
Context `{Constants} `{UnicodeTables} `{MapRange}.

Lemma charSet_of_perm alphabet : charSet_of alphabet ≡ₚ remove_dups alphabet.
Proof.
  apply NoDup_Permutation;
    [apply charSet_of_NoDup|apply NoDup_remove_dups|].
  intros c. by rewrite charSet_of_elem, elem_of_remove_dups.
Qed.

Lemma wordSet_of_perm casing wordList :
  casing_known casing = true →
  wordSet_of casing wordList ≡ₚ remove_dups (cased casing <$> wordList).
Proof.
  intros Hk. apply NoDup_Permutation;
    [apply wordSet_of_NoDup|apply NoDup_remove_dups|].
  intros w. by rewrite wordSet_of_elem, elem_of_remove_dups.
Qed.


Lemma GeneratePasswords_count_out `{Reader R} count length alphabet (r : R) :
  count < PasswordCountMin ∨ PasswordCountMax < count →
  GeneratePasswords count length alphabet r =
    (Returns [] (Some (OutOfRange "count" PasswordCountMin PasswordCountMax)), r).
Proof.
  intros Hout. unfold GeneratePasswords.
  destruct (Z.ltb_spec count PasswordCountMin);
    destruct (Z.ltb_spec PasswordCountMax count); try lia;
    cbn [orb]; by rewrite Errorf_count.
Qed.

Lemma GeneratePasswords_length_out `{Reader R} count length alphabet (r : R) :
  PasswordCountMin ≤ count ≤ PasswordCountMax →
  length < PasswordLengthMin ∨ PasswordLengthMax < length →
  GeneratePasswords count length alphabet r =
    (Returns [] (Some (OutOfRange "length" PasswordLengthMin PasswordLengthMax)),
     r).
Proof.
  intros Hin Hout. unfold GeneratePasswords.
  destruct (Z.ltb_spec count PasswordCountMin); [lia|].
  destruct (Z.ltb_spec PasswordCountMax count); [lia|]. cbn [orb].
  destruct (Z.ltb_spec length PasswordLengthMin);
    destruct (Z.ltb_spec PasswordLengthMax length); try lia;
    cbn [orb]; by rewrite Errorf_length.
Qed.

Lemma GeneratePasswords_few `{Reader R} count length alphabet (r : R) :
  PasswordCountMin ≤ count ≤ PasswordCountMax →
  PasswordLengthMin ≤ length ≤ PasswordLengthMax →
  Go.len (remove_dups alphabet) < 2 →
  GeneratePasswords count length alphabet r =
    (Returns [] (Some (InvalidUniverse "alphabet" 2 "characters")), r).
Proof.
  intros Hc Hl Hfew. unfold GeneratePasswords.
  destruct (Z.ltb_spec count PasswordCountMin); [lia|].
  destruct (Z.ltb_spec PasswordCountMax count); [lia|].
  destruct (Z.ltb_spec length PasswordLengthMin); [lia|].
  destruct (Z.ltb_spec PasswordLengthMax length); [lia|]. cbn [orb].
  unfold Go.len in *. rewrite (charSet_of_perm alphabet).
  unfold AlphabetLengthMin.
  destruct (Z.ltb_spec (Z.of_nat (Datatypes.length (remove_dups alphabet))) 2);
    [|lia].
  by rewrite Errorf_alphabet.
Qed.

Lemma GeneratePassphrases_count_out `{Reader R} count wordCount separator
    casing wordList (r : R) :
  count < PassphraseCountMin ∨ PassphraseCountMax < count →
  GeneratePassphrases count wordCount separator casing wordList r =
    (Returns [] (Some (OutOfRange "count" PassphraseCountMin PassphraseCountMax)),
     r).
Proof.
  intros Hout. unfold GeneratePassphrases.
  destruct (Z.ltb_spec count PassphraseCountMin);
    destruct (Z.ltb_spec PassphraseCountMax count); try lia;
    cbn [orb]; by rewrite Errorf_count.
Qed.

Lemma GeneratePassphrases_word_count_out `{Reader R} count wordCount separator
    casing wordList (r : R) :
  PassphraseCountMin ≤ count ≤ PassphraseCountMax →
  wordCount < PassphraseWordCountMin ∨ PassphraseWordCountMax < wordCount →
  GeneratePassphrases count wordCount separator casing wordList r =
    (Returns []
       (Some (OutOfRange "word count" PassphraseWordCountMin
                PassphraseWordCountMax)),
     r).
Proof.
  intros Hin Hout. unfold GeneratePassphrases.
  destruct (Z.ltb_spec count PassphraseCountMin); [lia|].
  destruct (Z.ltb_spec PassphraseCountMax count); [lia|]. cbn [orb].
  destruct (Z.ltb_spec wordCount PassphraseWordCountMin);
    destruct (Z.ltb_spec PassphraseWordCountMax wordCount); try lia;
    cbn [orb]; by rewrite Errorf_word_count.
Qed.

Lemma GeneratePassphrases_casing `{Reader R} count wordCount separator casing
    wordList (r : R) :
  PassphraseCountMin ≤ count ≤ PassphraseCountMax →
  PassphraseWordCountMin ≤ wordCount ≤ PassphraseWordCountMax →
  casing_known casing = false →
  GeneratePassphrases count wordCount separator casing wordList r =
    (Returns [] (Some InvalidCasingPolicy), r).
Proof.
  intros Hc Hw Hk. unfold GeneratePassphrases.
  destruct (Z.ltb_spec count PassphraseCountMin); [lia|].
  destruct (Z.ltb_spec PassphraseCountMax count); [lia|].
  destruct (Z.ltb_spec wordCount PassphraseWordCountMin); [lia|].
  destruct (Z.ltb_spec PassphraseWordCountMax wordCount); [lia|]. cbn [orb].
  by rewrite Hk.
Qed.

Lemma GeneratePassphrases_few `{Reader R} count wordCount separator casing
    wordList (r : R) :
  PassphraseCountMin ≤ count ≤ PassphraseCountMax →
  PassphraseWordCountMin ≤ wordCount ≤ PassphraseWordCountMax →
  casing_known casing = true →
  Go.len (remove_dups (cased casing <$> wordList)) < 2 →
  GeneratePassphrases count wordCount separator casing wordList r =
    (Returns [] (Some (InvalidUniverse "word list" 2 "words")), r).
Proof.
  intros Hc Hw Hk Hfew. unfold GeneratePassphrases.
  destruct (Z.ltb_spec count PassphraseCountMin); [lia|].
  destruct (Z.ltb_spec PassphraseCountMax count); [lia|].
  destruct (Z.ltb_spec wordCount PassphraseWordCountMin); [lia|].
  destruct (Z.ltb_spec PassphraseWordCountMax wordCount); [lia|]. cbn [orb].
  rewrite Hk. cbn [negb].
  unfold Go.len in *. rewrite (wordSet_of_perm casing wordList Hk).
  unfold WordListLengthMin.
  destruct (Z.ltb_spec
              (Z.of_nat (Datatypes.length
                           (remove_dups (cased casing <$> wordList)))) 2);
    [|lia].
  by rewrite Errorf_word_list.
Qed.

End Validation.

(** * The claims *)

Section Claims.
Context `{Constants} `{UnicodeTables} `{MapRange}.

(** C1. Every index the extraction produces lies in [0, universe size), and
    with [bytes.Reader] as the source a valid call returns, for each
    artifact, the symbols selected by the indices of the specification:
    the buffer is read as a big-endian bitstream, symbol [j] takes the
    bits [j * w, (j + 1) * w) of one cursor that runs over the whole
    artifact, assembled most significant bit first by shift and OR, then
    reduced modulo the size of the universe. *)
Theorem C1_bit_sliced_extraction :
  bounds_fit →
  (∀ bits size buffer c i c',
     0 < size → next_index bits size buffer c = Some (i, c') → 0 ≤ i < size)
  ∧ (∀ count length alphabet (src : list Z),
       password_request count length alphabet →
       let charSet := charSet_of alphabet in
       let bytesPerPassword :=
         Z.to_nat (Spec.ceil_div (Go.ceil_log2 (Go.len charSet) * length) 8) in
       (Z.to_nat count * bytesPerPassword ≤ Datatypes.length src)%nat →
       GeneratePasswords count length alphabet src =
         (Returns
            (Spec.artifacts (Spec.password charSet (Z.to_nat length))
               bytesPerPassword (Z.to_nat count) src)
            None,
          drop (Z.to_nat count * bytesPerPassword) src))
  ∧ (∀ count wordCount separator casing wordList (src : list Z),
       passphrase_request count wordCount casing wordList →
       let wordSet := wordSet_of casing wordList in
       let bytesPerPassphrase :=
         Z.to_nat (Spec.ceil_div (Go.ceil_log2 (Go.len wordSet) * wordCount) 8) in
       (Z.to_nat count * bytesPerPassphrase ≤ Datatypes.length src)%nat →
       GeneratePassphrases count wordCount separator casing wordList src =
         (Returns
            (Spec.artifacts
               (Spec.passphrase separator wordSet (Z.to_nat wordCount))
               bytesPerPassphrase (Z.to_nat count) src)
            None,
          drop (Z.to_nat count * bytesPerPassphrase) src)).
Proof.
  intros Hfit. split; [|split].
  - intros bits size buffer c i c'. apply next_index_range.
  - intros count length alphabet src Hreq charSet B Hsrc.
    rewrite GeneratePasswords_valid by done.
    rewrite (artifact_loop_bytes _ (Spec.password charSet (Z.to_nat length)));
      [done| |done].
    intros buffer Hbuf. by apply (password_of_valid count).
  - intros count wordCount separator casing wordList src Hreq wordSet B Hsrc.
    rewrite GeneratePassphrases_valid by done.
    rewrite (artifact_loop_bytes _
               (Spec.passphrase separator wordSet (Z.to_nat wordCount)));
      [done| |done].
    intros buffer Hbuf. by apply (passphrase_of_valid count).
Qed.

(** C2. For a universe of [size] symbols and artifacts of [length] symbols,
    the plan is: bits per symbol, the ceiling of log2 [size]; bits per
    artifact, their product with [length]; bytes per artifact, the ceiling
    of the eighth of that, a partial last byte counted in full.  Every
    artifact of a valid call asks the source for exactly that many bytes. *)
Theorem C2_bit_plan :
  (∀ size length,
     2 ≤ size ≤ Go.MaxInt → 0 ≤ length → 63 * length < Go.uint_modulus →
     ∃ bitsPerSymbol bitsPerArtifact bytesPerArtifact,
       bit_plan size length = (bitsPerSymbol, bitsPerArtifact, bytesPerArtifact)
       ∧ 1 ≤ bitsPerSymbol
       ∧ 2 ^ (bitsPerSymbol - 1) < size ≤ 2 ^ bitsPerSymbol
       ∧ bitsPerArtifact = bitsPerSymbol * length
       ∧ bytesPerArtifact = Spec.ceil_div bitsPerArtifact 8
       ∧ 8 * (bytesPerArtifact - 1) < bitsPerArtifact ≤ 8 * bytesPerArtifact
       ∧ (bitsPerArtifact mod 8 ≠ 0 →
          bytesPerArtifact = bitsPerArtifact / 8 + 1))
  ∧ (bounds_fit → ∀ count length alphabet,
       password_request count length alphabet →
       (GeneratePasswords count length alphabet ([] : list nat)).2 =
         replicate (Z.to_nat count)
           (Z.to_nat (bit_plan (Go.len (charSet_of alphabet)) length).2))
  ∧ (bounds_fit → ∀ count wordCount separator casing wordList,
       passphrase_request count wordCount casing wordList →
       (GeneratePassphrases count wordCount separator casing wordList
          ([] : list nat)).2 =
         replicate (Z.to_nat count)
           (Z.to_nat
              (bit_plan (Go.len (wordSet_of casing wordList)) wordCount).2)).
Proof.
  split; [|split].
  - intros size length Hsize Hlen Hfit.
    destruct (ceil_log2_bounds size Hsize) as [Hw Hpow].
    eexists _, _, _. split; [by apply bit_plan_spec|].
    pose proof (ceil_div_8_covers (Go.ceil_log2 size * length) ltac:(nia)) as Hc.
    repeat split; try lia.
    intros Hpart. unfold Spec.ceil_div.
    set (bits := Go.ceil_log2 size * length) in *.
    pose proof (Z.div_mod bits 8 ltac:(lia)).
    pose proof (Z.mod_pos_bound bits 8 ltac:(lia)).
    symmetry. apply Z.div_unique with (bits mod 8 - 1); lia.
  - intros Hfit count length alphabet Hreq.
    rewrite GeneratePasswords_valid by done.
    pose proof Hreq as (Hc0 & Hc & Hl0 & Hl & Hint & Huniq).
    pose proof (charSet_of_len alphabet). unfold AlphabetLengthMin in *.
    rewrite bit_plan_spec by (destruct Hfit; lia).
    rewrite artifact_loop_requests; [done|].
    intros buffer Hbuf. by rewrite (password_of_valid count).
  - intros Hfit count wordCount separator casing wordList Hreq.
    rewrite GeneratePassphrases_valid by done.
    pose proof Hreq as (Hc0 & Hc & Hl0 & Hl & Hk & Hint & Huniq).
    pose proof (wordSet_of_len casing wordList Hk).
    unfold WordListLengthMin in *.
    rewrite bit_plan_spec by (destruct Hfit; lia).
    rewrite artifact_loop_requests; [done|].
    intros buffer Hbuf. by rewrite (passphrase_of_valid count).
Qed.

(** C3. A valid call that returns without error returns exactly [count]
    artifacts; each password has [length] code points, every one a
    character of the alphabet; each passphrase is made of [wordCount]
    words, every one a word of the list in the selected casing.  With
    [bytes.Reader] as the source and enough bytes in it, the call does
    return without error. *)
Theorem C3_artifact_contents :
  bounds_fit →
  (∀ `{Reader R} count length alphabet (r : R) out,
     password_request count length alphabet →
     (GeneratePasswords count length alphabet r).1 = Returns out None →
     Go.len out = count
     ∧ Forall (λ password,
                 Go.len password = length
                 ∧ Forall (λ c, c ∈ alphabet) password) out)
  ∧ (∀ `{Reader R} count wordCount separator casing wordList (r : R) out,
       passphrase_request count wordCount casing wordList →
       (GeneratePassphrases count wordCount separator casing wordList r).1
         = Returns out None →
       Go.len out = count
       ∧ Forall (λ passphrase,
                   ∃ words, Go.len words = wordCount
                     ∧ Forall (λ w, w ∈ cased casing <$> wordList) words
                     ∧ passphrase = Spec.join separator words) out)
  ∧ (∀ count length alphabet (src : list Z),
       password_request count length alphabet →
       (Z.to_nat count
          * Z.to_nat (bit_plan (Go.len (charSet_of alphabet)) length).2
        ≤ Datatypes.length src)%nat →
       ∃ out, (GeneratePasswords count length alphabet src).1 = Returns out None)
  ∧ (∀ count wordCount separator casing wordList (src : list Z),
       passphrase_request count wordCount casing wordList →
       (Z.to_nat count
          * Z.to_nat (bit_plan (Go.len (wordSet_of casing wordList)) wordCount).2
        ≤ Datatypes.length src)%nat →
       ∃ out, (GeneratePassphrases count wordCount separator casing wordList
                 src).1 = Returns out None).
Proof.
  intros Hfit. split; [|split; [|split]].
  - intros R HR count length alphabet r out Hreq Hout.
    rewrite GeneratePasswords_valid in Hout by done.
    pose proof Hreq as (Hc0 & Hc & Hl0 & Hl & Hint & Huniq).
    unfold AlphabetLengthMin in *.
    set (charSet := charSet_of alphabet) in *.
    destruct (artifact_loop_cases
                (password_of length charSet (Go.ceil_log2 (Go.len charSet)))
                (λ a, ∃ buffer, a = Spec.password charSet (Z.to_nat length) buffer)
                (Z.to_nat count)
                (Spec.ceil_div (Go.ceil_log2 (Go.len charSet) * length) 8))
      with (artifacts := @nil (list Z)) (r := r)
      as [(new & Hres & Hlen & Hall)|(err & Hres)].
    + intros buffer Hbuf. eexists. split; [by apply (password_of_valid count)|].
      by eexists.
    + rewrite Hres in Hout. injection Hout as <-. split.
      * unfold Go.len. simpl. lia.
      * simpl. eapply Forall_impl; [exact Hall|].
        intros password [buffer ->].
        destruct (password_symbols charSet (Z.to_nat length) buffer) as [Hn Hin];
          [lia|].
        split; [unfold Go.len; lia|].
        eapply Forall_impl; [exact Hin|]. intros c. apply charSet_of_elem.
    + rewrite Hres in Hout. done.
  - intros R HR count wordCount separator casing wordList r out Hreq Hout.
    rewrite GeneratePassphrases_valid in Hout by done.
    pose proof Hreq as (Hc0 & Hc & Hl0 & Hl & Hk & Hint & Huniq).
    unfold WordListLengthMin in *.
    set (wordSet := wordSet_of casing wordList) in *.
    destruct (artifact_loop_cases
                (passphrase_of wordCount separator wordSet
                   (Go.ceil_log2 (Go.len wordSet)))
                (λ a, ∃ buffer,
                   a = Spec.passphrase separator wordSet (Z.to_nat wordCount)
                         buffer)
                (Z.to_nat count)
                (Spec.ceil_div (Go.ceil_log2 (Go.len wordSet) * wordCount) 8))
      with (artifacts := @nil (list Z)) (r := r)
      as [(new & Hres & Hlen & Hall)|(err & Hres)].
    + intros buffer Hbuf. eexists.
      split; [by apply (passphrase_of_valid count)|]. by eexists.
    + rewrite Hres in Hout. injection Hout as <-. split.
      * unfold Go.len. simpl. lia.
      * simpl. eapply Forall_impl; [exact Hall|].
        intros passphrase [buffer ->].
        destruct (passphrase_symbols wordSet (Z.to_nat wordCount) buffer)
          as [Hn Hin]; [lia|].
        eexists. split; [|split; [|reflexivity]].
        -- unfold Go.len. lia.
        -- eapply Forall_impl; [exact Hin|]. intros w. by apply wordSet_of_elem.
    + rewrite Hres in Hout. done.
  - intros count length alphabet src Hreq Hsrc.
    pose proof Hreq as (Hc0 & Hc & Hl0 & Hl & Hint & Huniq).
    pose proof (charSet_of_len alphabet). unfold AlphabetLengthMin in *.
    rewrite bit_plan_spec in Hsrc by (destruct Hfit; lia).
    rewrite GeneratePasswords_valid by done.
    erewrite artifact_loop_bytes; [by eexists| |exact Hsrc].
    intros buffer Hbuf. by apply (password_of_valid count).
  - intros count wordCount separator casing wordList src Hreq Hsrc.
    pose proof Hreq as (Hc0 & Hc & Hl0 & Hl & Hk & Hint & Huniq).
    pose proof (wordSet_of_len casing wordList Hk).
    unfold WordListLengthMin in *.
    rewrite bit_plan_spec in Hsrc by (destruct Hfit; lia).
    rewrite GeneratePassphrases_valid by done.
    erewrite artifact_loop_bytes; [by eexists| |exact Hsrc].
    intros buffer Hbuf. by apply (passphrase_of_valid count).
Qed.


(** C10. A valid call never panics, whatever the source delivers: the bits
    the cursor consumes, bits per symbol times length, are at most eight
    times the bytes of the buffer, so every byte read is inside the
    buffer, and every index into the universe is below its size because
    of the reduction. *)
Theorem C10_extraction_in_bounds :
  bounds_fit →
  (∀ `{Reader R} count length alphabet (r : R),
     password_request count length alphabet →
     (GeneratePasswords count length alphabet r).1 ≠ Panics)
  ∧ (∀ `{Reader R} count wordCount separator casing wordList (r : R),
       passphrase_request count wordCount casing wordList →
       (GeneratePassphrases count wordCount separator casing wordList r).1
         ≠ Panics)
  ∧ (∀ count length alphabet,
       password_request count length alphabet →
       let '(bitsPerChar, bitsPerPassword, bytesPerPassword) :=
         bit_plan (Go.len (charSet_of alphabet)) length in
       bitsPerPassword = bitsPerChar * length
       ∧ bitsPerPassword ≤ 8 * bytesPerPassword
       ∧ ∀ buffer, Datatypes.length buffer = Z.to_nat bytesPerPassword →
           is_Some (password_of length (charSet_of alphabet) bitsPerChar buffer))
  ∧ (∀ count wordCount separator casing wordList,
       passphrase_request count wordCount casing wordList →
       let '(bitsPerWord, bitsPerPassphrase, bytesPerPassphrase) :=
         bit_plan (Go.len (wordSet_of casing wordList)) wordCount in
       bitsPerPassphrase = bitsPerWord * wordCount
       ∧ bitsPerPassphrase ≤ 8 * bytesPerPassphrase
       ∧ ∀ buffer, Datatypes.length buffer = Z.to_nat bytesPerPassphrase →
           is_Some (passphrase_of wordCount separator
                      (wordSet_of casing wordList) bitsPerWord buffer))
  ∧ (∀ bits size buffer c i c',
       0 < size → next_index bits size buffer c = Some (i, c') → 0 ≤ i < size).
Proof.
  intros Hfit. split; [|split; [|split; [|split]]].
  - intros R HR count length alphabet r Hreq.
    rewrite GeneratePasswords_valid by done.
    edestruct (artifact_loop_cases
                 (password_of length (charSet_of alphabet)
                    (Go.ceil_log2 (Go.len (charSet_of alphabet))))
                 (λ _, True))
      as [(new & -> & _)|(err & ->)]; [|done|done].
    intros buffer Hbuf. eexists. split; [|done].
    by apply (password_of_valid count).
  - intros R HR count wordCount separator casing wordList r Hreq.
    rewrite GeneratePassphrases_valid by done.
    edestruct (artifact_loop_cases
                 (passphrase_of wordCount separator (wordSet_of casing wordList)
                    (Go.ceil_log2 (Go.len (wordSet_of casing wordList))))
                 (λ _, True))
      as [(new & -> & _)|(err & ->)]; [|done|done].
    intros buffer Hbuf. eexists. split; [|done].
    by apply (passphrase_of_valid count).
  - intros count length alphabet Hreq.
    pose proof Hreq as (Hc0 & Hc & Hl0 & Hl & Hint & Huniq).
    pose proof (charSet_of_len alphabet). unfold AlphabetLengthMin in *.
    rewrite bit_plan_spec by (destruct Hfit; lia).
    destruct (ceil_log2_bounds (Go.len (charSet_of alphabet))) as [Hw _]; [lia|].
    pose proof (ceil_div_8_covers
                  (Go.ceil_log2 (Go.len (charSet_of alphabet)) * length)
                  ltac:(apply Z.mul_nonneg_nonneg; lia)).
    split; [done|]. split; [lia|].
    intros buffer Hbuf. by rewrite (password_of_valid count).
  - intros count wordCount separator casing wordList Hreq.
    pose proof Hreq as (Hc0 & Hc & Hl0 & Hl & Hk & Hint & Huniq).
    pose proof (wordSet_of_len casing wordList Hk).
    unfold WordListLengthMin in *.
    rewrite bit_plan_spec by (destruct Hfit; lia).
    destruct (ceil_log2_bounds (Go.len (wordSet_of casing wordList)))
      as [Hw _]; [lia|].
    pose proof (ceil_div_8_covers
                  (Go.ceil_log2 (Go.len (wordSet_of casing wordList)) * wordCount)
                  ltac:(apply Z.mul_nonneg_nonneg; lia)).
    split; [done|]. split; [lia|].
    intros buffer Hbuf. by rewrite (passphrase_of_valid count).
  - intros bits size buffer c i c'. apply next_index_range.
Qed.

(** C7. A count outside its bounds, or a length or word count outside its
    bounds, makes the call fail with an out-of-range error and no output,
    before anything is read from the source; the message names the
    parameter and both bounds, and differs between count and length or
    word count.  In particular length 0 fails when the minimum is 1. *)
Theorem C7_out_of_range :
  (∀ `{Reader R} count length alphabet (r : R),
     count < PasswordCountMin ∨ PasswordCountMax < count →
     GeneratePasswords count length alphabet r =
       (Returns [] (Some (OutOfRange "count" PasswordCountMin PasswordCountMax)),
        r))
  ∧ (∀ `{Reader R} count length alphabet (r : R),
       PasswordCountMin ≤ count ≤ PasswordCountMax →
       length < PasswordLengthMin ∨ PasswordLengthMax < length →
       GeneratePasswords count length alphabet r =
         (Returns []
            (Some (OutOfRange "length" PasswordLengthMin PasswordLengthMax)),
          r))
  ∧ (∀ `{Reader R} count wordCount separator casing wordList (r : R),
       count < PassphraseCountMin ∨ PassphraseCountMax < count →
       GeneratePassphrases count wordCount separator casing wordList r =
         (Returns []
            (Some (OutOfRange "count" PassphraseCountMin PassphraseCountMax)),
          r))
  ∧ (∀ `{Reader R} count wordCount separator casing wordList (r : R),
       PassphraseCountMin ≤ count ≤ PassphraseCountMax →
       wordCount < PassphraseWordCountMin ∨ PassphraseWordCountMax < wordCount →
       GeneratePassphrases count wordCount separator casing wordList r =
         (Returns []
            (Some (OutOfRange "word count" PassphraseWordCountMin
                     PassphraseWordCountMax)),
          r))
  ∧ (∀ lo hi lo' hi',
       OutOfRange "count" lo hi ≠ OutOfRange "length" lo' hi'
       ∧ OutOfRange "count" lo hi ≠ OutOfRange "word count" lo' hi')
  ∧ (PasswordLengthMin = 1 →
     ∀ `{Reader R} count alphabet (r : R),
       ∃ what lo hi,
         GeneratePasswords count 0 alphabet r =
           (Returns [] (Some (OutOfRange what lo hi)), r)).
Proof.
  split; [intros; by apply GeneratePasswords_count_out|].
  split; [intros; by apply GeneratePasswords_length_out|].
  split; [intros; by apply GeneratePassphrases_count_out|].
  split; [intros; by apply GeneratePassphrases_word_count_out|].
  split.
  - intros lo hi lo' hi'. unfold OutOfRange. split; intros [=].
  - intros Hmin R HR count alphabet r.
    destruct (decide (PasswordCountMin ≤ count ≤ PasswordCountMax)).
    + eexists _, _, _. apply GeneratePasswords_length_out; [done|lia].
    + eexists _, _, _. apply GeneratePasswords_count_out. lia.
Qed.

(** C6. With count and length (or word count and casing) accepted, an
    alphabet with fewer than 2 unique characters, or a word list with fewer
    than 2 unique words once cased, makes the call fail with an
    invalid-universe error whose message states the minimum of 2, with no
    output and nothing read from the source.  The alphabet "x" and the
    word list ["a", "a"] fail, whatever the other arguments. *)
Theorem C6_universe_too_small :
  (∀ `{Reader R} count length alphabet (r : R),
     PasswordCountMin ≤ count ≤ PasswordCountMax →
     PasswordLengthMin ≤ length ≤ PasswordLengthMax →
     Go.len (remove_dups alphabet) < 2 →
     GeneratePasswords count length alphabet r =
       (Returns [] (Some (InvalidUniverse "alphabet" 2 "characters")), r))
  ∧ (∀ `{Reader R} count wordCount separator casing wordList (r : R),
       PassphraseCountMin ≤ count ≤ PassphraseCountMax →
       PassphraseWordCountMin ≤ wordCount ≤ PassphraseWordCountMax →
       casing_known casing = true →
       Go.len (remove_dups (cased casing <$> wordList)) < 2 →
       GeneratePassphrases count wordCount separator casing wordList r =
         (Returns [] (Some (InvalidUniverse "word list" 2 "words")), r))
  ∧ InvalidUniverse "alphabet" 2 "characters"
      = errorString "alphabet must contain at least 2 unique characters"
  ∧ InvalidUniverse "word list" 2 "words"
      = errorString "word list must contain at least 2 unique words"
  ∧ (∀ `{Reader R} count length (r : R),
       ∃ err, GeneratePasswords count length (runes "x") r
                = (Returns [] (Some err), r)
         ∧ (PasswordCountMin ≤ count ≤ PasswordCountMax →
            PasswordLengthMin ≤ length ≤ PasswordLengthMax →
            err = InvalidUniverse "alphabet" 2 "characters"))
  ∧ (∀ `{Reader R} count wordCount separator casing (r : R),
       ∃ err, GeneratePassphrases count wordCount separator casing
                [runes "a"; runes "a"] r
                = (Returns [] (Some err), r)
         ∧ (PassphraseCountMin ≤ count ≤ PassphraseCountMax →
            PassphraseWordCountMin ≤ wordCount ≤ PassphraseWordCountMax →
            casing_known casing = true →
            err = InvalidUniverse "word list" 2 "words")).
Proof.
  split; [intros; by apply GeneratePasswords_few|].
  split; [intros; by apply GeneratePassphrases_few|].
  split; [done|]. split; [done|]. split.
  - intros R HR count length r.
    destruct (decide (PasswordCountMin ≤ count ≤ PasswordCountMax)) as [Hc|Hc].
    + destruct (decide (PasswordLengthMin ≤ length ≤ PasswordLengthMax))
        as [Hl|Hl].
      * eexists. split; [by apply GeneratePasswords_few|done].
      * eexists. split; [apply GeneratePasswords_length_out; [done|lia]|lia].
    + eexists. split; [apply GeneratePasswords_count_out; lia|lia].
  - intros R HR count wordCount separator casing r.
    assert (∀ w : list Z, Go.len (remove_dups [w; w]) < 2) as Hdup.
    { intros w. cbn [remove_dups]. destruct (decide_rel elem_of w [w]) as [_|Hn].
      - destruct (decide_rel elem_of w []); unfold Go.len; simpl; lia.
      - destruct Hn. by apply list_elem_of_singleton. }
    destruct (decide (PassphraseCountMin ≤ count ≤ PassphraseCountMax))
      as [Hc|Hc].
    + destruct (decide (PassphraseWordCountMin ≤ wordCount
                        ≤ PassphraseWordCountMax)) as [Hw|Hw].
      * destruct (casing_known casing) eqn:Hk.
        -- eexists. split; [|done].
           apply GeneratePassphrases_few; [done|done|done|apply Hdup].
        -- eexists. split; [by apply GeneratePassphrases_casing|done].
      * eexists.
        split; [apply GeneratePassphrases_word_count_out; [done|lia]|lia].
    + eexists. split; [apply GeneratePassphrases_count_out; lia|lia].
Qed.


(** C5 (amended). The universe of a passphrase call holds the words of the
    list after the casing transform, each once: words that collide once
    cased share one entry.  Lower case and upper case map every letter;
    title case maps the first letter of a word and keeps the rest; none
    keeps the word as provided.  The list ["Alfa", "BRAVO"] gives
    {"alfa", "bravo"} under lower case and {"Alfa", "BRAVO"} under title
    case. *)
Theorem C5_casing_then_dedup :
  selectors_distinct →
  (∀ casing wordList,
     casing_known casing = true →
     wordSet_of casing wordList ≡ₚ remove_dups (cased casing <$> wordList))
  ∧ (∀ casing wordList w,
       casing_known casing = true → w ∈ wordList →
       NoDup (wordSet_of casing wordList)
       ∧ cased casing w ∈ wordSet_of casing wordList)
  ∧ (∀ w, cased PassphraseCasingLower w = strings.ToLower w
          ∧ cased PassphraseCasingUpper w = strings.ToUpper w
          ∧ cased PassphraseCasingTitle w = strings.Title w
          ∧ cased PassphraseCasingNone w = w)
  ∧ wordSet_of PassphraseCasingLower [runes "Alfa"; runes "BRAVO"]
      ≡ₚ [runes "alfa"; runes "bravo"]
  ∧ wordSet_of PassphraseCasingTitle [runes "Alfa"; runes "BRAVO"]
      ≡ₚ [runes "Alfa"; runes "BRAVO"]
  ∧ (∀ wordList,
       wordSet_of PassphraseCasingNone wordList ≡ₚ remove_dups wordList).
Proof.
  intros Hdistinct.
  assert (∀ w, cased PassphraseCasingLower w = strings.ToLower w
               ∧ cased PassphraseCasingUpper w = strings.ToUpper w
               ∧ cased PassphraseCasingTitle w = strings.Title w
               ∧ cased PassphraseCasingNone w = w) as Hcased.
  { unfold selectors_distinct in Hdistinct.
    rewrite !NoDup_cons, !not_elem_of_cons in Hdistinct.
    destruct Hdistinct as ((? & ? & ? & _) & (? & ? & _) & (? & _) & _).
    intros w. unfold cased. rewrite !Z.eqb_refl.
    repeat match goal with
           | |- context [?a =? ?b] =>
               destruct (Z.eqb_spec a b); [congruence|]
           end.
    done. }
  assert (casing_known PassphraseCasingLower = true
          ∧ casing_known PassphraseCasingTitle = true
          ∧ casing_known PassphraseCasingNone = true) as (Hkl & Hkt & Hkn).
  { unfold casing_known. by rewrite !Z.eqb_refl, !orb_true_r. }
  split; [intros; by apply wordSet_of_perm|].
  split.
  { intros casing wordList w Hk Hw. split; [apply wordSet_of_NoDup|].
    apply wordSet_of_elem; [done|]. by apply list_elem_of_fmap_2. }
  split; [exact Hcased|].
  split; [|split].
  - rewrite wordSet_of_perm by done. cbn [fmap list_fmap].
    rewrite (proj1 (Hcased (runes "Alfa"))), (proj1 (Hcased (runes "BRAVO"))).
    by vm_compute.
  - rewrite wordSet_of_perm by done. cbn [fmap list_fmap].
    destruct (Hcased (runes "Alfa")) as (_ & _ & -> & _).
    destruct (Hcased (runes "BRAVO")) as (_ & _ & -> & _).
    by vm_compute.
  - intros wordList. rewrite wordSet_of_perm by done.
    rewrite (list_fmap_ext (cased PassphraseCasingNone) id wordList),
      list_fmap_id; [done|].
    intros i w _. apply Hcased.
Qed.


End Claims.

(** * The claims on concrete calls *)

(** Closes a closed fact about numbers by evaluation. *)
Ltac evaluate :=
  vm_compute; first [reflexivity | discriminate | lia | done].

Ltac evaluate_all := repeat split; evaluate.

Section Examples.
#[local] Existing Instance spec_constants.
#[local] Existing Instance ascii_tables.
#[local] Existing Instance plain_range.

(** Two passwords of four characters over {a, b, c}: two bits per
    character, one byte per password. *)
Lemma C1_witness :
  GeneratePasswords 2 4 (runes "abcab") [27; 228; 255]
  = (Returns [runes "cabc"; runes "cbac"] None, [255]).
Proof.
  refine (proj1 (proj2 (C1_bit_sliced_extraction _))
            2 4 (runes "abcab") [27; 228; 255] _ _); evaluate_all.
Defined.

Lemma C2_witness :
  (GeneratePasswords 2 4 (runes "abcab") ([] : list nat)).2
  = [1%nat; 1%nat].
Proof.
  refine (proj1 (proj2 C2_bit_plan) _ 2 4 (runes "abcab") _); evaluate_all.
Defined.

Lemma C3_witness :
  Go.len [runes "cabc"; runes "cbac"] = 2
  ∧ Forall (λ password,
              Go.len password = 4
              ∧ Forall (λ c, c ∈ runes "abcab") password)
      [runes "cabc"; runes "cbac"].
Proof.
  refine (proj1 (C3_artifact_contents _)
            (list Z) _ 2 4 (runes "abcab") [27; 228; 255] _ _ _);
    evaluate_all.
Defined.


Lemma C10_witness :
  (GeneratePasswords 2 4 (runes "abcab") [27; 228; 255]).1 ≠ Panics.
Proof.
  refine (proj1 (C10_extraction_in_bounds _)
            (list Z) _ 2 4 (runes "abcab") [27; 228; 255] _); evaluate_all.
Defined.

Lemma spec_selectors_distinct : selectors_distinct.
Proof.
  unfold selectors_distinct. cbn.
  repeat (apply NoDup_cons_2;
          [rewrite ?elem_of_cons, elem_of_nil; lia|]).
  apply NoDup_nil_2.
Defined.

Lemma C5_witness :
  wordSet_of PassphraseCasingTitle [runes "Alfa"; runes "BRAVO"]
  ≡ₚ [runes "Alfa"; runes "BRAVO"].
Proof.
  exact (proj1 (proj2 (proj2 (proj2 (proj2
           (C5_casing_then_dedup spec_selectors_distinct)))))).
Defined.

(** Title case keeps "BRAVO": the universe is not {"Alfa", "Bravo"}. *)
Lemma C5_counterexample :
  ¬ (wordSet_of PassphraseCasingTitle [runes "Alfa"; runes "BRAVO"]
     ≡ₚ [runes "Alfa"; runes "Bravo"]).
Proof.
  intros Hperm.
  assert (runes "Bravo"
          ∈ wordSet_of PassphraseCasingTitle [runes "Alfa"; runes "BRAVO"])
    as Hin by (rewrite Hperm, !elem_of_cons; auto).
  vm_compute in Hin.
  repeat (apply elem_of_cons in Hin as [Hin|Hin]; [discriminate Hin|]).
  by apply elem_of_nil in Hin.
Qed.

Lemma C6_witness :
  GeneratePasswords 1 8 (runes "x") [1; 2; 3]
  = (Returns [] (Some (InvalidUniverse "alphabet" 2 "characters")), [1; 2; 3]).
Proof.
  refine (proj1 C6_universe_too_small (list Z) _ 1 8 (runes "x") [1; 2; 3]
            _ _ _); evaluate_all.
Defined.

Lemma C7_witness :
  GeneratePasswords 1 0 (runes "ab") [1; 2; 3]
  = (Returns [] (Some (OutOfRange "length" 1 1000)), [1; 2; 3]).
Proof.
  refine (proj1 (proj2 C7_out_of_range) (list Z) _ 1 0 (runes "ab") [1; 2; 3]
            _ _); [evaluate_all|left; evaluate].
Defined.




End Examples.

(** * Beyond the claims *)

(** ** Positional arguments *)

Lemma decimal_value_ge s : ∀ acc,
  0 ≤ acc → Forall (λ c, 48 ≤ c ≤ 57) s → acc ≤ decimal_value acc s.
Proof.
  induction s as [|c s IH]; intros acc Hacc Hall; [simpl; lia|].
  apply Forall_cons in Hall as [Hc Hall]. cbn [decimal_value].
  etrans; [|apply IH; [lia|done]]. lia.
Qed.

Lemma ParseUint_from_digits s : ∀ n,
  0 ≤ n → Forall (λ c, 48 ≤ c ≤ 57) s →
  decimal_value n s ≤ strconv.maxUint64 →
  strconv.ParseUint_from n s = Some (decimal_value n s).
Proof.
  induction s as [|c s IH]; intros n Hn Hall Hfit; [done|].
  apply Forall_cons in Hall as [Hc Hall]. cbn [decimal_value] in *.
  pose proof (decimal_value_ge s (n * 10 + (c - 48)) ltac:(lia) Hall) as Hge.
  assert (strconv.maxUint64 = 18446744073709551615) as Hmax by reflexivity.
  assert (strconv.cutoff = 1844674407370955162) as Hcut by reflexivity.
  cbn [strconv.ParseUint_from].
  destruct (Z.leb_spec 48 c); [|lia]. destruct (Z.leb_spec c 57); [|lia].
  cbn [andb]. rewrite Hcut.
  destruct (Z.leb_spec 1844674407370955162 n); [lia|].
  unfold Go.umul, Go.uadd.
  rewrite (wrap_small (n * 10)) by (rewrite uint_modulus_eq; lia).
  rewrite (wrap_small (n * 10 + (c - 48))) by (rewrite uint_modulus_eq; lia).
  destruct (Z.ltb_spec (n * 10 + (c - 48)) (n * 10)); [lia|].
  destruct (Z.ltb_spec strconv.maxUint64 (n * 10 + (c - 48))); [lia|].
  cbn [orb]. apply IH; [lia|done|done].
Qed.

Lemma ParseUint_from_Some s : ∀ n v,
  0 ≤ n ≤ strconv.maxUint64 →
  strconv.ParseUint_from n s = Some v →
  Forall (λ c, 48 ≤ c ≤ 57) s ∧ v = decimal_value n s ∧ v ≤ strconv.maxUint64.
Proof.
  induction s as [|c s IH]; intros n v Hn.
  - intros [= <-]. split; [constructor|]. simpl. lia.
  - assert (strconv.maxUint64 = 18446744073709551615) as Hmax by reflexivity.
    assert (strconv.cutoff = 1844674407370955162) as Hcut by reflexivity.
    cbn [strconv.ParseUint_from decimal_value].
    destruct (Z.leb_spec 48 c); [|done]. destruct (Z.leb_spec c 57); [|done].
    cbn [andb]. rewrite Hcut.
    destruct (Z.leb_spec 1844674407370955162 n); [done|].
    unfold Go.umul, Go.uadd.
    rewrite (wrap_small (n * 10)) by (rewrite uint_modulus_eq; lia).
    destruct (decide (n * 10 + (c - 48) < Go.uint_modulus)) as [Hsmall|Hbig].
    + rewrite (wrap_small (n * 10 + (c - 48))) by lia.
      destruct (Z.ltb_spec (n * 10 + (c - 48)) (n * 10)); [done|].
      destruct (Z.ltb_spec strconv.maxUint64 (n * 10 + (c - 48))); [done|].
      cbn [orb]. intros Hrest.
      apply IH in Hrest as (Hall & -> & Hv); [|lia].
      split; [constructor; [lia|done]|done].
    + assert (Go.wrap (n * 10 + (c - 48)) = n * 10 + (c - 48) - Go.uint_modulus)
        as ->.
      { unfold Go.wrap. rewrite uint_modulus_eq in *.
        symmetry. apply Z.mod_unique with 1; lia. }
      rewrite uint_modulus_eq in *.
      destruct (Z.ltb_spec (n * 10 + (c - 48) - 18446744073709551616) (n * 10));
        [done|lia].
Qed.

Lemma ParseUint_numeral s :
  is_Some (strconv.ParseUint s) ↔ numeral s.
Proof.
  unfold numeral. split.
  - intros [v Hv]. destruct s as [|c s]; [done|].
    apply ParseUint_from_Some in Hv as (Hall & -> & Hfit); [done|].
    by vm_compute.
  - intros (Hne & Hall & Hfit). destruct s as [|c s]; [done|].
    unfold strconv.ParseUint. by rewrite ParseUint_from_digits.
Qed.

Lemma ParseUint_value s v :
  strconv.ParseUint s = Some v → v = decimal_value 0 s ∧ 0 ≤ v ≤ strconv.maxUint64.
Proof.
  intros Hv. destruct s as [|c s]; [done|].
  apply ParseUint_from_Some in Hv as (Hall & -> & Hfit); [|by vm_compute].
  split; [done|]. split; [|done]. by apply decimal_value_ge.
Qed.

(** *** Decimal renderings are numerals *)

Lemma runes_String (a : ascii) (s : string) :
  runes (String a s) = Z.of_N (N_of_ascii a) :: runes s.
Proof. reflexivity. Qed.

Lemma uint_digits (d : Decimal.uint) :
  Forall (λ c, 48 ≤ c ≤ 57) (runes (NilEmpty.string_of_uint d)).
Proof.
  induction d; cbn [NilEmpty.string_of_uint]; [constructor|..];
    rewrite runes_String; (constructor; [by vm_compute|done]).
Qed.

Lemma uint_value_acc (d : Decimal.uint) : ∀ p : positive,
  decimal_value (Z.pos p) (runes (NilEmpty.string_of_uint d))
  = Z.pos (Pos.of_uint_acc d p).
Proof.
  induction d as [|d IH|d IH|d IH|d IH|d IH|d IH|d IH|d IH|d IH|d IH];
    intros p; cbn [NilEmpty.string_of_uint Pos.of_uint_acc]; [done|..];
    rewrite runes_String; cbn [decimal_value]; rewrite <- IH; f_equal;
    vm_compute (Z.of_N _); lia.
Qed.

Lemma uint_value (d : Decimal.uint) :
  decimal_value 0 (runes (NilEmpty.string_of_uint d)) = Z.of_N (Pos.of_uint d).
Proof.
  induction d as [|d IH|d IH|d IH|d IH|d IH|d IH|d IH|d IH|d IH|d IH];
    cbn [NilEmpty.string_of_uint Pos.of_uint]; [done|..];
    rewrite runes_String; cbn [decimal_value Z.of_N];
    vm_compute (0 * 10 + _); first [exact IH | apply uint_value_acc].
Qed.

(** The decimal rendering of a [uint64] is a numeral with that value. *)
Lemma decimal_numeral (n : Z) :
  0 ≤ n ≤ strconv.maxUint64 →
  numeral (runes (decimal n)) ∧ decimal_value 0 (runes (decimal n)) = n.
Proof.
  intros Hn. destruct n as [|p|p]; [| |lia].
  { change (runes (decimal 0)) with [48]. split; [|reflexivity].
    split; [done|]. split; [|by vm_compute]. repeat constructor; lia. }
  unfold decimal. cbn [Z.to_int NilZero.string_of_int].
  assert (NilZero.string_of_uint (Pos.to_uint p)
          = NilEmpty.string_of_uint (Pos.to_uint p)) as ->.
  { pose proof (DecimalPos.Unsigned.of_to p) as Hof.
    destruct (Pos.to_uint p); [done|reflexivity..]. }
  assert (decimal_value 0 (runes (NilEmpty.string_of_uint (Pos.to_uint p)))
          = Z.pos p) as Hval
    by (rewrite uint_value, DecimalPos.Unsigned.of_to; done).
  split; [|done]. split; [|split; [apply uint_digits|rewrite Hval; lia]].
  intros Hnil. rewrite Hnil in Hval. done.
Qed.

Lemma ParseUint_decimal (n : Z) :
  0 ≤ n ≤ strconv.maxUint64 → strconv.ParseUint (runes (decimal n)) = Some n.
Proof.
  intros Hn. destruct (decimal_numeral n Hn) as [Hnum Hval].
  destruct (proj2 (ParseUint_numeral _) Hnum) as [v Hv].
  rewrite Hv. f_equal. apply ParseUint_value in Hv as [-> _]. done.
Qed.

Lemma ParseUint_uintMax s v :
  strconv.ParseUint s = Some v → (uintMax <? v) = false.
Proof.
  intros Hv. apply ParseUint_value in Hv as [_ Hv].
  apply Z.ltb_ge. change uintMax with strconv.maxUint64. lia.
Qed.

(** The platform check never fires on a 64-bit [uint]: what is left of
    [parse_args] is the count of the arguments and the two parses. *)
Lemma parse_args_cases what first count args :
  parse_args what first count args =
    match args with
    | [] => (None, first, count)
    | [arg0] =>
        match strconv.ParseUint arg0 with
        | None =>
            (Some (errorString ("invalid " +:+ what +:+ " provided")), first, count)
        | Some v => (None, v, count)
        end
    | [arg0; arg1] =>
        match strconv.ParseUint arg0 with
        | None =>
            (Some (errorString ("invalid " +:+ what +:+ " provided")), first, count)
        | Some v =>
            match strconv.ParseUint arg1 with
            | None => (Some (errorString "invalid count provided"), v, count)
            | Some c => (None, v, c)
            end
        end
    | _ => (Some (errorString "too many args provided"), first, count)
    end.
Proof.
  unfold parse_args.
  destruct args as [|arg0 [|arg1 [|arg2 rest]]].
  - done.
  - change (2 <? Go.len [arg0]) with false. cbv iota.
    destruct (strconv.ParseUint arg0) as [v|] eqn:Hv; [|done].
    by rewrite (ParseUint_uintMax _ _ Hv).
  - change (2 <? Go.len [arg0; arg1]) with false. cbv iota.
    destruct (strconv.ParseUint arg0) as [v|] eqn:Hv; [|done].
    rewrite (ParseUint_uintMax _ _ Hv).
    destruct (strconv.ParseUint arg1) as [c|] eqn:Hc; [|done].
    by rewrite (ParseUint_uintMax _ _ Hc).
  - assert ((2 <? Go.len (arg0 :: arg1 :: arg2 :: rest)) = true) as ->; [|done].
    apply Z.ltb_lt. unfold Go.len. simpl. lia.
Qed.

Lemma parse_args_accepted what first count args :
  (parse_args what first count args).1.1 = None
  ↔ Go.len args ≤ 2 ∧ Forall numeral args.
Proof.
  rewrite parse_args_cases.
  destruct args as [|arg0 [|arg1 [|arg2 rest]]].
  - split; [|done]. intros _. split; [by vm_compute|constructor].
  - destruct (strconv.ParseUint arg0) as [v|] eqn:Hv; simpl.
    + split; [|done]. intros _. split; [by vm_compute|].
      constructor; [apply ParseUint_numeral; by eexists|constructor].
    + split; [done|]. intros [_ Hall]. apply Forall_cons in Hall as [Hn _].
      apply ParseUint_numeral in Hn as [? ?]. congruence.
  - destruct (strconv.ParseUint arg0) as [v|] eqn:Hv; simpl.
    + destruct (strconv.ParseUint arg1) as [c|] eqn:Hc; simpl.
      * split; [|done]. intros _. split; [by vm_compute|].
        constructor; [apply ParseUint_numeral; by eexists|].
        constructor; [apply ParseUint_numeral; by eexists|constructor].
      * split; [done|]. intros [_ Hall].
        apply Forall_cons in Hall as [_ Hall].
        apply Forall_cons in Hall as [Hn _].
        apply ParseUint_numeral in Hn as [? ?]. congruence.
    + split; [done|]. intros [_ Hall]. apply Forall_cons in Hall as [Hn _].
      apply ParseUint_numeral in Hn as [? ?]. congruence.
  - simpl. split; [done|]. intros [Hlen _]. unfold Go.len in Hlen.
    simpl in Hlen. lia.
Qed.

Lemma parse_args_refused what first count :
  (∀ args, 2 < Go.len args →
     parse_args what first count args
       = (Some (errorString "too many args provided"), first, count))
  ∧ (∀ arg0 rest, ¬ numeral arg0 → Go.len (arg0 :: rest) ≤ 2 →
       parse_args what first count (arg0 :: rest)
         = (Some (errorString ("invalid " +:+ what +:+ " provided")), first, count))
  ∧ (∀ arg0 arg1, numeral arg0 → ¬ numeral arg1 →
       parse_args what first count [arg0; arg1]
         = (Some (errorString "invalid count provided"),
            decimal_value 0 arg0, count)).
Proof.
  split; [|split].
  - intros args Hlen. rewrite parse_args_cases.
    destruct args as [|arg0 [|arg1 [|arg2 rest]]]; try done;
      unfold Go.len in Hlen; simpl in Hlen; lia.
  - intros arg0 rest Hbad Hlen. rewrite parse_args_cases.
    assert (strconv.ParseUint arg0 = None) as Hnone.
    { destruct (strconv.ParseUint arg0) eqn:Hv; [|done].
      destruct Hbad. apply ParseUint_numeral. by eexists. }
    destruct rest as [|arg1 [|arg2 rest]]; rewrite ?Hnone; try done.
    unfold Go.len in Hlen. simpl in Hlen. lia.
  - intros arg0 arg1 Hok Hbad. rewrite parse_args_cases.
    apply ParseUint_numeral in Hok as [v Hv]. rewrite Hv.
    apply ParseUint_value in Hv as [-> _].
    destruct (strconv.ParseUint arg1) eqn:Hc; [|done].
    destruct Hbad. apply ParseUint_numeral. by eexists.
Qed.

(** X1. Either command accepts its positional arguments exactly when there
    are at most two and each is a non-empty string of decimal digits whose
    value fits 64 bits.  A third argument is refused and leaves the
    configuration as it was; so does a first argument that is no such
    numeral; a second one that is no numeral is refused after the first
    has been stored. *)
Theorem X1_arguments_accepted :
  (∀ cfg args,
     (passwordCmd.Args cfg args).1 = None
     ↔ Go.len args ≤ 2 ∧ Forall numeral args)
  ∧ (∀ cfg args,
       (passphraseCmd.Args cfg args).1 = None
       ↔ Go.len args ≤ 2 ∧ Forall numeral args)
  ∧ (∀ cfg cfg' args,
       2 < Go.len args →
       passwordCmd.Args cfg args
         = (Some (errorString "too many args provided"), cfg)
       ∧ passphraseCmd.Args cfg' args
           = (Some (errorString "too many args provided"), cfg'))
  ∧ (∀ cfg cfg' arg0 rest,
       ¬ numeral arg0 → Go.len (arg0 :: rest) ≤ 2 →
       passwordCmd.Args cfg (arg0 :: rest)
         = (Some (errorString "invalid length provided"), cfg)
       ∧ passphraseCmd.Args cfg' (arg0 :: rest)
           = (Some (errorString "invalid word count provided"), cfg'))
  ∧ (∀ cfg cfg' arg0 arg1,
       numeral arg0 → ¬ numeral arg1 →
       (passwordCmd.Args cfg [arg0; arg1]).1
         = Some (errorString "invalid count provided")
       ∧ passwordCmd.length (passwordCmd.Args cfg [arg0; arg1]).2
           = decimal_value 0 arg0
       ∧ (passphraseCmd.Args cfg' [arg0; arg1]).1
           = Some (errorString "invalid count provided")
       ∧ passphraseCmd.wordCount (passphraseCmd.Args cfg' [arg0; arg1]).2
           = decimal_value 0 arg0).
Proof.
  split; [|split; [|split; [|split]]].
  - intros cfg args. rewrite <- (parse_args_accepted "length"
      (passwordCmd.length cfg) (passwordCmd.count cfg) args).
    unfold passwordCmd.Args. by destruct (parse_args _ _ _ _) as [[err ?] ?].
  - intros cfg args. rewrite <- (parse_args_accepted "word count"
      (passphraseCmd.wordCount cfg) (passphraseCmd.count cfg) args).
    unfold passphraseCmd.Args. by destruct (parse_args _ _ _ _) as [[err ?] ?].
  - intros cfg cfg' args Hlen. unfold passwordCmd.Args, passphraseCmd.Args.
    rewrite !(proj1 (parse_args_refused _ _ _)) by done.
    by destruct cfg, cfg'.
  - intros cfg cfg' arg0 rest Hbad Hlen.
    unfold passwordCmd.Args, passphraseCmd.Args.
    rewrite !(proj1 (proj2 (parse_args_refused _ _ _))) by done.
    by destruct cfg, cfg'.
  - intros cfg cfg' arg0 arg1 Hok Hbad.
    unfold passwordCmd.Args, passphraseCmd.Args.
    rewrite !(proj2 (proj2 (parse_args_refused _ _ _))) by done. done.
Qed.

(** X2. The decimal rendering of any two [uint64] values is accepted by
    either command and stores exactly those values, the first as the length
    or the word count and the second as the count; one argument stores the
    first and keeps the count; no argument keeps both.  Every other field
    of the configuration is kept. *)
Theorem X2_arguments_round_trip :
  (∀ cfg first count,
     0 ≤ first ≤ strconv.maxUint64 → 0 ≤ count ≤ strconv.maxUint64 →
     passwordCmd.Args cfg [runes (decimal first); runes (decimal count)]
       = (None,
          passwordCmd.Config count first (passwordCmd.alphabet cfg)
            (passwordCmd.allowUppercase cfg) (passwordCmd.allowLowercase cfg)
            (passwordCmd.allowNumeric cfg) (passwordCmd.allowSpecial cfg)
            (passwordCmd.allowAmbiguous cfg))
     ∧ passwordCmd.Args cfg [runes (decimal first)]
         = (None,
            passwordCmd.Config (passwordCmd.count cfg) first
              (passwordCmd.alphabet cfg)
              (passwordCmd.allowUppercase cfg) (passwordCmd.allowLowercase cfg)
              (passwordCmd.allowNumeric cfg) (passwordCmd.allowSpecial cfg)
              (passwordCmd.allowAmbiguous cfg)))
  ∧ (∀ cfg first count,
       0 ≤ first ≤ strconv.maxUint64 → 0 ≤ count ≤ strconv.maxUint64 →
       passphraseCmd.Args cfg [runes (decimal first); runes (decimal count)]
         = (None,
            passphraseCmd.Config count first (passphraseCmd.separator cfg)
              (passphraseCmd.casing cfg) (passphraseCmd.wordList cfg)
              (passphraseCmd.separatorString cfg)
              (passphraseCmd.casingLower cfg) (passphraseCmd.casingUpper cfg)
              (passphraseCmd.casingTitle cfg) (passphraseCmd.casingNone cfg))
       ∧ passphraseCmd.Args cfg [runes (decimal first)]
           = (None,
              passphraseCmd.Config (passphraseCmd.count cfg) first
                (passphraseCmd.separator cfg)
                (passphraseCmd.casing cfg) (passphraseCmd.wordList cfg)
                (passphraseCmd.separatorString cfg)
                (passphraseCmd.casingLower cfg) (passphraseCmd.casingUpper cfg)
                (passphraseCmd.casingTitle cfg) (passphraseCmd.casingNone cfg)))
  ∧ (∀ cfg cfg',
       passwordCmd.Args cfg [] = (None, cfg)
       ∧ passphraseCmd.Args cfg' [] = (None, cfg')).
Proof.
  split; [|split].
  - intros cfg first count Hf Hc.
    unfold passwordCmd.Args. rewrite !parse_args_cases.
    by rewrite !ParseUint_decimal.
  - intros cfg first count Hf Hc.
    unfold passphraseCmd.Args. rewrite !parse_args_cases.
    by rewrite !ParseUint_decimal.
  - intros cfg cfg'. by destruct cfg, cfg'.
Qed.

(** ** The commands *)

Lemma print_lines_concat stdout artifacts :
  print_lines stdout artifacts
  = stdout ++ concat ((λ artifact, artifact ++ [10]) <$> artifacts).
Proof.
  unfold print_lines. revert stdout.
  induction artifacts as [|a artifacts IH]; intros stdout.
  - simpl. by rewrite app_nil_r.
  - cbn [foldl fmap list_fmap concat]. rewrite IH. by rewrite <- !app_assoc.
Qed.

Lemma printed_length (symbols : Z) artifacts :
  Forall (λ a : list Z, Go.len a = symbols) artifacts →
  Go.len (concat ((λ artifact, artifact ++ [10]) <$> artifacts))
  = Go.len artifacts * (symbols + 1).
Proof.
  unfold Go.len. induction 1 as [|a artifacts Ha _ IH]; [done|].
  cbn [fmap list_fmap concat Datatypes.length].
  rewrite !length_app, !Nat2Z.inj_add, IH. cbn [Datatypes.length]. lia.
Qed.

Section Outcomes.
Context `{Constants} `{UnicodeTables} `{MapRange}.

(** A valid call ends in one of two ways. *)
Lemma GeneratePasswords_outcome `{Reader R} count length alphabet (r : R) :
  password_request count length alphabet → bounds_fit →
  (∃ passwords,
     (GeneratePasswords count length alphabet r).1 = Returns passwords None
     ∧ Go.len passwords = count
     ∧ Forall (λ password,
                 Go.len password = length
                 ∧ Forall (λ c, c ∈ alphabet) password) passwords)
  ∨ (∃ err,
       (GeneratePasswords count length alphabet r).1 = Returns [] (Some err)).
Proof.
  intros Hreq Hfit. rewrite GeneratePasswords_valid by done.
  pose proof Hreq as (Hc0 & Hc & Hl0 & Hl & Hint & Huniq).
  unfold AlphabetLengthMin in *.
  set (charSet := charSet_of alphabet) in *.
  destruct (artifact_loop_cases
              (password_of length charSet (Go.ceil_log2 (Go.len charSet)))
              (λ a, ∃ buffer, a = Spec.password charSet (Z.to_nat length) buffer)
              (Z.to_nat count)
              (Spec.ceil_div (Go.ceil_log2 (Go.len charSet) * length) 8))
    with (artifacts := @nil (list Z)) (r := r)
    as [(new & Hres & Hlen & Hall)|(err & Hres)].
  - intros buffer Hbuf. eexists. split; [by apply (password_of_valid count)|].
    by eexists.
  - left. exists new. split; [done|]. split; [unfold Go.len; lia|].
    eapply Forall_impl; [exact Hall|]. intros password [buffer ->].
    destruct (password_symbols charSet (Z.to_nat length) buffer) as [Hn Hin];
      [lia|].
    split; [unfold Go.len; lia|].
    eapply Forall_impl; [exact Hin|]. intros c. apply charSet_of_elem.
  - right. by exists err.
Qed.

Lemma GeneratePassphrases_outcome `{Reader R} count wordCount separator casing
    wordList (r : R) :
  passphrase_request count wordCount casing wordList → bounds_fit →
  (∃ passphrases,
     (GeneratePassphrases count wordCount separator casing wordList r).1
       = Returns passphrases None
     ∧ Go.len passphrases = count
     ∧ Forall (λ passphrase,
                 ∃ words, Go.len words = wordCount
                   ∧ Forall (λ w, w ∈ cased casing <$> wordList) words
                   ∧ passphrase = Spec.join separator words) passphrases)
  ∨ (∃ err,
       (GeneratePassphrases count wordCount separator casing wordList r).1
         = Returns [] (Some err)).
Proof.
  intros Hreq Hfit. rewrite GeneratePassphrases_valid by done.
  pose proof Hreq as (Hc0 & Hc & Hl0 & Hl & Hk & Hint & Huniq).
  unfold WordListLengthMin in *.
  set (wordSet := wordSet_of casing wordList) in *.
  destruct (artifact_loop_cases
              (passphrase_of wordCount separator wordSet
                 (Go.ceil_log2 (Go.len wordSet)))
              (λ a, ∃ buffer,
                 a = Spec.passphrase separator wordSet (Z.to_nat wordCount) buffer)
              (Z.to_nat count)
              (Spec.ceil_div (Go.ceil_log2 (Go.len wordSet) * wordCount) 8))
    with (artifacts := @nil (list Z)) (r := r)
    as [(new & Hres & Hlen & Hall)|(err & Hres)].
  - intros buffer Hbuf. eexists.
    split; [by apply (passphrase_of_valid count)|]. by eexists.
  - left. exists new. split; [done|]. split; [unfold Go.len; lia|].
    eapply Forall_impl; [exact Hall|]. intros passphrase [buffer ->].
    destruct (passphrase_symbols wordSet (Z.to_nat wordCount) buffer)
      as [Hn Hin]; [lia|].
    eexists. split; [|split; [|reflexivity]].
    + unfold Go.len. lia.
    + eapply Forall_impl; [exact Hin|]. intros w. by apply wordSet_of_elem.
  - right. by exists err.
Qed.

(** Whatever the arguments, an error comes with no artifact. *)
Lemma GeneratePasswords_error `{Reader R} count length alphabet (r : R) out err :
  (GeneratePasswords count length alphabet r).1 = Returns out (Some err) →
  out = [].
Proof.
  unfold GeneratePasswords.
  repeat (case_match; [by intros [= <- _]|]).
  destruct (bit_plan _ _) as [[bitsPerChar ?] bytesPerPassword].
  rewrite password_loop_artifact. apply artifact_loop_error.
Qed.

End Outcomes.

Section PasswordCommand.
Context `{Constants} `{MapRange} `{Alphabets}.

(** X3. When the parameters of the password command pass the checks of the
    generator, a run never panics and ends in one of two ways, whatever the
    source: it prints [count] lines, each a password of [length] characters
    of the chosen alphabet and a newline, [count * (length + 1)] runes in
    all, and returns no error; or it returns the error of the source and
    prints nothing.  Whatever the parameters, a run that returns an error
    has printed nothing. *)
Theorem X3_password_command_prints :
  bounds_fit →
  (∀ `{Reader R} cfg stdout (r : R),
     password_request (passwordCmd.count cfg) (passwordCmd.length cfg)
       (passwordCmd.chosen_alphabet cfg) →
     (∃ passwords,
        (passwordCmd.RunE cfg stdout r).1
          = Exits (stdout ++ concat ((λ p, p ++ [10]) <$> passwords)) None
        ∧ Go.len passwords = passwordCmd.count cfg
        ∧ Forall (λ password,
                    Go.len password = passwordCmd.length cfg
                    ∧ Forall (λ c, c ∈ passwordCmd.chosen_alphabet cfg) password)
            passwords
        ∧ Go.len (concat ((λ p, p ++ [10]) <$> passwords))
            = passwordCmd.count cfg * (passwordCmd.length cfg + 1))
     ∨ (∃ err, (passwordCmd.RunE cfg stdout r).1 = Exits stdout (Some err)))
  ∧ (∀ `{Reader R} cfg stdout (r : R) out err,
       (passwordCmd.RunE cfg stdout r).1 = Exits out (Some err) → out = stdout).
Proof.
  intros Hfit. split.
  - intros R HR cfg stdout r Hreq. unfold passwordCmd.RunE.
    destruct (GeneratePasswords_outcome _ _ _ r Hreq Hfit)
      as [(passwords & Hres & Hlen & Hall)|(err & Hres)].
    + left. exists passwords.
      destruct (GeneratePasswords _ _ _ r) as [res r']. simpl in Hres. subst res.
      cbn [fst]. rewrite print_lines_concat. split; [done|].
      split; [done|]. split; [done|].
      rewrite (printed_length (passwordCmd.length cfg)), Hlen; [done|].
      eapply Forall_impl; [exact Hall|]. by intros p [? _].
    + right. exists err.
      destruct (GeneratePasswords _ _ _ r) as [res r']. simpl in Hres.
      by subst res.
  - intros R HR cfg stdout r out err. unfold passwordCmd.RunE.
    destruct (GeneratePasswords _ _ _ r) as [[passwords [e|]|] r'];
      cbn [fst]; by intros [= <- _] || done.
Qed.

(** X4. A custom alphabet supersedes the flags: two configurations with the
    same non-empty alphabet, count and length run alike, whatever their
    flags.  Without one, the characters come from the classes the flags ask
    for, in their ambiguous or unambiguous variant, and from the default
    alphabet when they ask for nothing; the generator is handed an empty
    alphabet only when that default is empty. *)
Theorem X4_alphabet_choice :
  (∀ `{Reader R} cfg cfg' stdout (r : R),
     passwordCmd.alphabet cfg ≠ [] →
     passwordCmd.alphabet cfg' = passwordCmd.alphabet cfg →
     passwordCmd.count cfg' = passwordCmd.count cfg →
     passwordCmd.length cfg' = passwordCmd.length cfg →
     passwordCmd.RunE cfg' stdout r = passwordCmd.RunE cfg stdout r)
  ∧ (∀ cfg c,
       passwordCmd.alphabet cfg = [] →
       c ∈ passwordCmd.chosen_alphabet cfg →
       (passwordCmd.allowLowercase cfg = true
        ∧ c ∈ (if passwordCmd.allowAmbiguous cfg then AlphabetLowerAmbiguous
               else AlphabetLower))
       ∨ (passwordCmd.allowUppercase cfg = true
          ∧ c ∈ (if passwordCmd.allowAmbiguous cfg then AlphabetUpperAmbiguous
                 else AlphabetUpper))
       ∨ (passwordCmd.allowNumeric cfg = true
          ∧ c ∈ (if passwordCmd.allowAmbiguous cfg then AlphabetNumericAmbiguous
                 else AlphabetNumeric))
       ∨ (passwordCmd.allowSpecial cfg = true ∧ c ∈ AlphabetSpecial)
       ∨ c ∈ (if passwordCmd.allowAmbiguous cfg then AlphabetDefaultAmbiguous
              else AlphabetDefault))
  ∧ (∀ cfg,
       passwordCmd.chosen_alphabet cfg = [] →
       passwordCmd.alphabet cfg = []
       ∧ (if passwordCmd.allowAmbiguous cfg then AlphabetDefaultAmbiguous
          else AlphabetDefault) = []).
Proof.
  split; [|split].
  - intros R HR cfg cfg' stdout r Hne Ha Hc Hl. unfold passwordCmd.RunE.
    rewrite Hc, Hl. unfold passwordCmd.chosen_alphabet. rewrite Ha.
    destruct (passwordCmd.alphabet cfg); done.
  - intros cfg c Ha. unfold passwordCmd.chosen_alphabet. rewrite Ha.
    cbv zeta. intros Hin.
    assert (∀ b d : list Z,
              c ∈ match b with [] => d | _ :: _ => b end → c ∈ b ∨ c ∈ d)
      as Hmatch by (intros [|] ? ?; auto).
    apply Hmatch in Hin as [Hin|Hin]; [|by repeat right].
    destruct (passwordCmd.allowLowercase cfg), (passwordCmd.allowUppercase cfg),
      (passwordCmd.allowNumeric cfg), (passwordCmd.allowSpecial cfg),
      (passwordCmd.allowAmbiguous cfg);
      rewrite ?app_nil_l, ?elem_of_app, ?elem_of_nil in Hin;
      decompose [or] Hin;
      first [ done | by left | by right; left | by right; right; left
            | by right; right; right; left ].
  - intros cfg. unfold passwordCmd.chosen_alphabet.
    destruct (passwordCmd.alphabet cfg) as [|a custom]; [|done].
    rewrite !app_nil_l. cbv zeta.
    match goal with
    | |- match ?b with [] => _ | _ :: _ => _ end = [] → _ => destruct b
    end; done.
Qed.

End PasswordCommand.

Section PassphraseCommand.
Context `{Constants} `{UnicodeTables} `{MapRange}.

(** *** White space around a line *)

Lemma TrimLeft_space_split s :
  ∃ pre, s = pre ++ passphraseCmd.TrimLeft_space s
    ∧ Forall (λ r, passphraseCmd.IsSpace r = true) pre
    ∧ ∀ r, head (passphraseCmd.TrimLeft_space s) = Some r →
           passphraseCmd.IsSpace r = false.
Proof.
  induction s as [|r s (pre & Hs & Hpre & Hhead)].
  - exists []. by repeat split.
  - cbn [passphraseCmd.TrimLeft_space].
    destruct (passphraseCmd.IsSpace r) eqn:Hr.
    + exists (r :: pre). split; [by rewrite Hs at 1|]. split; [by constructor|done].
    + exists []. split; [done|]. split; [constructor|].
      intros r' [= <-]. done.
Qed.

Lemma TrimLeft_space_all s :
  Forall (λ r, passphraseCmd.IsSpace r = true) s →
  passphraseCmd.TrimLeft_space s = [].
Proof.
  induction 1 as [|r s Hr _ IH]; [done|].
  cbn [passphraseCmd.TrimLeft_space]. by rewrite Hr.
Qed.

Lemma TrimLeft_space_id s :
  (∀ r, head s = Some r → passphraseCmd.IsSpace r = false) →
  passphraseCmd.TrimLeft_space s = s.
Proof.
  destruct s as [|r s]; [done|]. intros Hhead.
  cbn [passphraseCmd.TrimLeft_space]. by rewrite (Hhead r).
Qed.

(** X8. A word read from a word-list file is the line without its leading
    and trailing white space: the line is white space, the word, white
    space; the word neither starts nor ends with white space; trimming it
    again changes nothing; a line of white space only gives the empty
    word. *)
Theorem X8_trimmed_lines :
  (∀ line,
     ∃ pre post,
       line = pre ++ passphraseCmd.TrimSpace line ++ post
       ∧ Forall (λ r, passphraseCmd.IsSpace r = true) pre
       ∧ Forall (λ r, passphraseCmd.IsSpace r = true) post
       ∧ (∀ r, head (passphraseCmd.TrimSpace line) = Some r →
               passphraseCmd.IsSpace r = false)
       ∧ (∀ r, last (passphraseCmd.TrimSpace line) = Some r →
               passphraseCmd.IsSpace r = false))
  ∧ (∀ line,
       passphraseCmd.TrimSpace (passphraseCmd.TrimSpace line)
       = passphraseCmd.TrimSpace line)
  ∧ (∀ line,
       Forall (λ r, passphraseCmd.IsSpace r = true) line →
       passphraseCmd.TrimSpace line = []).
Proof.
  assert (∀ line,
     ∃ pre post,
       line = pre ++ passphraseCmd.TrimSpace line ++ post
       ∧ Forall (λ r, passphraseCmd.IsSpace r = true) pre
       ∧ Forall (λ r, passphraseCmd.IsSpace r = true) post
       ∧ (∀ r, head (passphraseCmd.TrimSpace line) = Some r →
               passphraseCmd.IsSpace r = false)
       ∧ (∀ r, last (passphraseCmd.TrimSpace line) = Some r →
               passphraseCmd.IsSpace r = false)) as Hsplit.
  { intros line. unfold passphraseCmd.TrimSpace.
    destruct (TrimLeft_space_split line) as (pre & Hline & Hpre & Hhead).
    set (t := passphraseCmd.TrimLeft_space line) in *.
    destruct (TrimLeft_space_split (reverse t)) as (pre' & Hrt & Hpre' & Hhead').
    set (u := passphraseCmd.TrimLeft_space (reverse t)) in *.
    assert (t = reverse u ++ reverse pre') as Ht
      by (rewrite <- reverse_app, <- Hrt, reverse_involutive; done).
    exists pre, (reverse pre'). split; [by rewrite <- Ht|].
    split; [done|]. split; [by apply Forall_reverse|]. split.
    - intros r Hr. apply Hhead. rewrite Ht.
      destruct (reverse u); [done|]. done.
    - intros r Hr. apply Hhead'. by rewrite <- last_reverse. }
  split; [exact Hsplit|]. split.
  - intros line.
    destruct (Hsplit line) as (_ & _ & _ & _ & _ & Hhead & Hlast).
    set (w := passphraseCmd.TrimSpace line) in *.
    unfold passphraseCmd.TrimSpace.
    rewrite (TrimLeft_space_id w) by done.
    rewrite (TrimLeft_space_id (reverse w)); [apply reverse_involutive|].
    intros r. rewrite head_reverse. apply Hlast.
  - intros line Hall. unfold passphraseCmd.TrimSpace.
    by rewrite (TrimLeft_space_all line).
Qed.

(** *** The flags *)

(** X5. The casing flags exclude one another: the command is refused with
    "at most one casing method is allowed" exactly when two or more of the
    four flags are set, and then it prints nothing and reads nothing from
    the source, whatever the word-list file.  One flag selects its casing;
    no flag keeps the configured one. *)
Theorem X5_casing_flags :
  (∀ cfg,
     (2 ≤ casing_flags cfg)%nat
     ↔ passphraseCmd.chosen_casing cfg
         = inl (errorString "at most one casing method is allowed"))
  ∧ (∀ cfg,
       casing_flags cfg = 0%nat →
       passphraseCmd.chosen_casing cfg = inr (passphraseCmd.casing cfg))
  ∧ (∀ cfg,
       casing_flags cfg = 1%nat →
       passphraseCmd.chosen_casing cfg
         = inr (if passphraseCmd.casingLower cfg then PassphraseCasingLower
                else if passphraseCmd.casingUpper cfg then PassphraseCasingUpper
                else if passphraseCmd.casingTitle cfg then PassphraseCasingTitle
                else PassphraseCasingNone))
  ∧ (∀ `{Reader R} cfg file stdout (r : R),
       (2 ≤ casing_flags cfg)%nat →
       Go.len (passphraseCmd.separatorString cfg) ≤ 1 →
       passphraseCmd.RunE cfg file stdout r
         = (Exits stdout
              (Some (errorString "at most one casing method is allowed")), r)).
Proof.
  assert (∀ cfg,
     (2 ≤ casing_flags cfg)%nat
     ↔ passphraseCmd.chosen_casing cfg
         = inl (errorString "at most one casing method is allowed")) as Hmany.
  { intros cfg. unfold casing_flags, passphraseCmd.chosen_casing.
    destruct (passphraseCmd.casingLower cfg), (passphraseCmd.casingUpper cfg),
      (passphraseCmd.casingTitle cfg), (passphraseCmd.casingNone cfg);
      simpl; split; (done || lia). }
  split; [exact Hmany|]. split; [|split].
  - intros cfg. unfold casing_flags, passphraseCmd.chosen_casing.
    destruct (passphraseCmd.casingLower cfg), (passphraseCmd.casingUpper cfg),
      (passphraseCmd.casingTitle cfg), (passphraseCmd.casingNone cfg);
      simpl; (done || lia).
  - intros cfg. unfold casing_flags, passphraseCmd.chosen_casing.
    destruct (passphraseCmd.casingLower cfg), (passphraseCmd.casingUpper cfg),
      (passphraseCmd.casingTitle cfg), (passphraseCmd.casingNone cfg);
      simpl; (done || lia).
  - intros R HR cfg file stdout r Hflags Hsep. unfold passphraseCmd.RunE.
    apply Hmany in Hflags. rewrite Hflags.
    unfold passphraseCmd.chosen_separator.
    destruct (passphraseCmd.separatorString cfg) as [|c [|c' rest]]; [done|done|].
    unfold Go.len in Hsep. simpl in Hsep. lia.
Qed.

(** X6. A separator flag of more than one character makes the command fail
    with "separator must be a single character" before anything else: it
    prints nothing and reads nothing, whatever the other flags and the
    word-list file.  A flag of one character is the separator of every
    passphrase printed: each line is the words joined by it. *)
Theorem X6_separator_flag :
  (∀ `{Reader R} cfg file stdout (r : R),
     1 < Go.len (passphraseCmd.separatorString cfg) →
     passphraseCmd.RunE cfg file stdout r
       = (Exits stdout
            (Some (errorString "separator must be a single character")), r))
  ∧ (bounds_fit →
     ∀ `{Reader R} cfg c casing stdout (r : R) out,
       passphraseCmd.separatorString cfg = [c] →
       passphraseCmd.chosen_casing cfg = inr casing →
       passphrase_request (passphraseCmd.count cfg) (passphraseCmd.wordCount cfg)
         casing (passphraseCmd.wordList cfg) →
       (passphraseCmd.RunE cfg None stdout r).1 = Exits out None →
       ∃ passphrases,
         out = stdout ++ concat ((λ p, p ++ [10]) <$> passphrases)
         ∧ Go.len passphrases = passphraseCmd.count cfg
         ∧ Forall (λ passphrase,
                     ∃ words, Go.len words = passphraseCmd.wordCount cfg
                       ∧ Forall (λ w, w ∈ cased casing
                                        <$> passphraseCmd.wordList cfg) words
                       ∧ passphrase = Spec.join c words) passphrases).
Proof.
  split.
  - intros R HR cfg file stdout r Hsep.
    unfold passphraseCmd.RunE, passphraseCmd.chosen_separator.
    destruct (passphraseCmd.separatorString cfg) as [|c rest] eqn:Hs.
    + unfold Go.len in Hsep. simpl in Hsep. lia.
    + destruct (Z.ltb_spec 1 (Go.len (c :: rest))); [done|lia].
  - intros Hfit R HR cfg c casing stdout r out Hs Hcasing Hreq.
    unfold passphraseCmd.RunE, passphraseCmd.chosen_separator.
    rewrite Hs, Hcasing. change (1 <? Go.len [c]) with false. cbv iota.
    destruct (GeneratePassphrases_outcome _ _ c _ _ r Hreq Hfit)
      as [(passphrases & Hres & Hlen & Hall)|(err & Hres)].
    + destruct (GeneratePassphrases _ _ _ _ _ r) as [res r'].
      simpl in Hres. subst res. cbn [fst]. intros [= <-].
      exists passphrases. by rewrite print_lines_concat.
    + destruct (GeneratePassphrases _ _ _ _ _ r) as [res r'].
      simpl in Hres. subst res. done.
Qed.

(** X7. With the separator and the casing settled and the counts within
    their bounds, a word-list file that cannot be opened makes the command
    return the error of the opening, and a file with fewer than two
    different words once trimmed and cased, an empty file for one, makes it
    fail with the error of the word list, whatever the configured list; in
    both cases nothing is printed and nothing is read from the source. *)
Theorem X7_word_list_file :
  (∀ `{Reader R} cfg separator casing err stdout (r : R),
     passphraseCmd.chosen_separator cfg = inr separator →
     passphraseCmd.chosen_casing cfg = inr casing →
     passphraseCmd.RunE cfg (Some (inl err)) stdout r
       = (Exits stdout (Some err), r))
  ∧ (∀ `{Reader R} cfg separator casing lines stdout (r : R),
       passphraseCmd.chosen_separator cfg = inr separator →
       passphraseCmd.chosen_casing cfg = inr casing →
       casing_known casing = true →
       PassphraseCountMin ≤ passphraseCmd.count cfg ≤ PassphraseCountMax →
       PassphraseWordCountMin ≤ passphraseCmd.wordCount cfg
         ≤ PassphraseWordCountMax →
       Go.len (remove_dups
                 (cased casing <$> (passphraseCmd.TrimSpace <$> lines))) < 2 →
       passphraseCmd.RunE cfg (Some (inr lines)) stdout r
         = (Exits stdout (Some (InvalidUniverse "word list" 2 "words")), r))
  ∧ (∀ `{Reader R} cfg separator casing stdout (r : R),
       passphraseCmd.chosen_separator cfg = inr separator →
       passphraseCmd.chosen_casing cfg = inr casing →
       casing_known casing = true →
       PassphraseCountMin ≤ passphraseCmd.count cfg ≤ PassphraseCountMax →
       PassphraseWordCountMin ≤ passphraseCmd.wordCount cfg
         ≤ PassphraseWordCountMax →
       passphraseCmd.RunE cfg (Some (inr [])) stdout r
         = (Exits stdout (Some (InvalidUniverse "word list" 2 "words")), r)).
Proof.
  assert (∀ `{Reader R} cfg separator casing lines stdout (r : R),
       passphraseCmd.chosen_separator cfg = inr separator →
       passphraseCmd.chosen_casing cfg = inr casing →
       casing_known casing = true →
       PassphraseCountMin ≤ passphraseCmd.count cfg ≤ PassphraseCountMax →
       PassphraseWordCountMin ≤ passphraseCmd.wordCount cfg
         ≤ PassphraseWordCountMax →
       Go.len (remove_dups
                 (cased casing <$> (passphraseCmd.TrimSpace <$> lines))) < 2 →
       passphraseCmd.RunE cfg (Some (inr lines)) stdout r
         = (Exits stdout (Some (InvalidUniverse "word list" 2 "words")), r))
    as Hfew.
  { intros R HR cfg separator casing lines stdout r Hs Hc Hk Hcount Hwords Hlen.
    unfold passphraseCmd.RunE. rewrite Hs, Hc.
    by rewrite GeneratePassphrases_few. }
  split; [|split; [exact Hfew|]].
  - intros R HR cfg separator casing err stdout r Hs Hc.
    unfold passphraseCmd.RunE. by rewrite Hs, Hc.
  - intros R HR cfg separator casing stdout r Hs Hc Hk Hcount Hwords.
    by apply (Hfew R HR cfg separator casing).
Qed.

End PassphraseCommand.

(** ** More on the extraction *)

Lemma symbol_bits_length buffer w j :
  (Datatypes.length (Spec.symbol_bits buffer w j) ≤ w)%nat.
Proof. unfold Spec.symbol_bits. rewrite length_take. lia. Qed.

Lemma assemble_bounds bits :
  0 ≤ Spec.assemble bits < 2 ^ Z.of_nat (Datatypes.length bits).
Proof.
  unfold Spec.assemble.
  pose proof (foldl_shift_or_bounds bits 0 ltac:(lia)). lia.
Qed.

(** X9. The index of a symbol is the value [v] of its bits, below
    [2 ^ bitsPerChar], reduced by at most one subtraction of the size of the
    universe: an index [i] comes from [v = i], and from [v = i + size] as
    well exactly when [i < 2 ^ bitsPerChar - size].  When the size is a
    power of two the index is [v] itself. *)
Theorem X9_reduction_bias buffer size (j : nat) :
  2 ≤ size ≤ Go.MaxInt →
  let w := Z.to_nat (Go.ceil_log2 size) in
  (S j * w ≤ 8 * Datatypes.length buffer)%nat →
  Z.of_nat (S j * w) < Go.uint_modulus →
  ∃ v,
    v = Spec.assemble (Spec.symbol_bits buffer w j)
    ∧ 0 ≤ v < 2 ^ Go.ceil_log2 size
    ∧ next_index (Go.ceil_log2 size) size buffer (cursor_at 0 (j * w))
      = Some (if v <? size then v else v - size, cursor_at 0 (S j * w))
    ∧ (size = 2 ^ Go.ceil_log2 size →
       next_index (Go.ceil_log2 size) size buffer (cursor_at 0 (j * w))
       = Some (v, cursor_at 0 (S j * w)))
    ∧ (∀ v' i, 0 ≤ v' < 2 ^ Go.ceil_log2 size → 0 ≤ i < size →
         v' mod size = i
         ↔ v' = i ∨ (v' = i + size ∧ i < 2 ^ Go.ceil_log2 size - size)).
Proof.
  intros Hsize w Hlen Hmax.
  destruct (ceil_log2_bounds size Hsize) as [Hw Hpow].
  assert (2 ^ Go.ceil_log2 size = 2 * 2 ^ (Go.ceil_log2 size - 1)) as Hdouble.
  { rewrite <- Z.pow_succ_r by lia. f_equal. lia. }
  set (v := Spec.assemble (Spec.symbol_bits buffer w j)).
  assert (0 ≤ v < 2 ^ Go.ceil_log2 size) as Hv.
  { pose proof (assemble_bounds (Spec.symbol_bits buffer w j)) as Hb.
    pose proof (symbol_bits_length buffer w j) as Hl.
    assert (2 ^ Z.of_nat (Datatypes.length (Spec.symbol_bits buffer w j))
            ≤ 2 ^ Go.ceil_log2 size)
      by (apply Z.pow_le_mono_r; lia).
    fold v in Hb. lia. }
  assert (v mod size = if v <? size then v else v - size) as Hmod.
  { destruct (Z.ltb_spec v size).
    - apply Z.mod_small. lia.
    - symmetry. apply Z.mod_unique with 1; lia. }
  assert (next_index (Go.ceil_log2 size) size buffer (cursor_at 0 (j * w))
          = Some (v mod size, cursor_at 0 (S j * w))) as Hnext.
  { rewrite <- (Z2Nat.id (Go.ceil_log2 size)) at 1 by lia. fold w.
    rewrite next_index_spec; [done|lia|lia|done|done]. }
  exists v. split; [done|]. split; [done|]. split; [by rewrite Hnext, Hmod|].
  split.
  - intros Hp. rewrite Hnext, Hmod.
    destruct (Z.ltb_spec v size); [done|lia].
  - intros v' i Hv' Hi. split.
    + intros <-. destruct (decide (v' < size)).
      * left. symmetry. apply Z.mod_small. lia.
      * right. assert (v' mod size = v' - size) as ->
          by (symmetry; apply Z.mod_unique with 1; lia). lia.
    + intros [->|[-> Hlt]].
      * apply Z.mod_small. lia.
      * symmetry. apply Z.mod_unique with 1; lia.
Qed.

(** *** A buffer shorter than the plan *)

Lemma read_bits_short buffer (k : nat) : ∀ v (pos : nat),
  0 ≤ v → (v + 1) * 2 ^ Z.of_nat k ≤ Go.uint_modulus →
  (pos ≤ 8 * Datatypes.length buffer < pos + k)%nat →
  Z.of_nat (pos + k) < Go.uint_modulus →
  read_bits k buffer (cursor_at v pos) = None.
Proof.
  induction k as [|k IH]; intros v pos Hv Hfit Hlen Hmax; [lia|].
  rewrite Nat2Z.inj_succ, Z.pow_succ_r in Hfit by lia.
  assert (0 < 2 ^ Z.of_nat k) as Hpow by (apply Z.pow_pos_nonneg; lia).
  cbn [read_bits].
  destruct (decide (pos < 8 * Datatypes.length buffer)%nat) as [Hin|Hout].
  - destruct (read_bit_spec buffer v pos) as (b & Hb & ->); [lia|nia|lia|lia|].
    cbn [mbind option_bind].
    assert (0 ≤ Z.b2z b ≤ 1) by (destruct b; simpl; lia).
    apply IH; [rewrite shift_or_bit; lia|rewrite shift_or_bit; nia|lia|lia].
  - unfold read_bit, cursor_at. cbn [byteIdx]. rewrite Nat2Z.id.
    rewrite (lookup_ge_None_2 buffer (pos / 8)); [done|].
    assert (pos = 8 * Datatypes.length buffer)%nat as -> by lia.
    rewrite Nat.mul_comm, Nat.div_mul by lia. lia.
Qed.

Lemma next_index_short buffer (w : nat) (size : Z) (j : nat) :
  (w ≤ 64)%nat →
  (j * w ≤ 8 * Datatypes.length buffer < S j * w)%nat →
  Z.of_nat (S j * w) < Go.uint_modulus →
  next_index (Z.of_nat w) size buffer (cursor_at 0 (j * w)) = None.
Proof.
  intros Hw Hlen Hmax. unfold next_index. rewrite Nat2Z.id.
  rewrite read_bits_short; [done|lia| |simpl in *; lia|simpl in *; lia].
  rewrite Z.mul_1_l. unfold Go.uint_modulus, Go.uint_bits.
  apply Z.pow_le_mono_r; lia.
Qed.

Lemma password_chars_short charSet buffer (w : nat) (m : nat) : ∀ (j : nat) b,
  charSet ≠ [] → (w ≤ 64)%nat →
  (j * w ≤ 8 * Datatypes.length buffer < (j + m) * w)%nat →
  Z.of_nat ((j + m) * w) < Go.uint_modulus →
  password_chars m charSet (Z.of_nat w) buffer (cursor_at 0 (j * w)) b = None.
Proof.
  induction m as [|m IH]; intros j b Hne Hw Hlen Hmax; [lia|].
  assert (0 < Go.len charSet) as Hsize
    by (unfold Go.len; destruct charSet; simpl; [done|lia]).
  cbn [password_chars].
  destruct (decide (S j * w ≤ 8 * Datatypes.length buffer)%nat) as [Hin|Hout].
  - rewrite next_index_spec; [|lia|done|done|nia].
    cbn [mbind option_bind].
    pose proof (index_range buffer w (Go.len charSet) j Hsize) as Hidx.
    rewrite (list_lookup_lookup_total_lt charSet
               (Z.to_nat (Spec.index buffer w (Go.len charSet) j)))
      by (unfold Go.len in *; lia).
    cbn [mbind option_bind]. apply IH; [done|done|lia|nia].
  - rewrite next_index_short; [done|done|lia|nia].
Qed.

Lemma passphrase_words_short wordSet buffer separator wordCount (w : nat)
    (m : nat) : ∀ (j : nat) b,
  wordSet ≠ [] → (w ≤ 64)%nat →
  Z.of_nat (j + m) < Go.uint_modulus →
  (j * w ≤ 8 * Datatypes.length buffer < (j + m) * w)%nat →
  Z.of_nat ((j + m) * w) < Go.uint_modulus →
  passphrase_words m (Z.of_nat j) wordCount separator wordSet (Z.of_nat w)
    buffer (cursor_at 0 (j * w)) b = None.
Proof.
  induction m as [|m IH]; intros j b Hne Hw Hj Hlen Hmax; [lia|].
  assert (0 < Go.len wordSet) as Hsize
    by (unfold Go.len; destruct wordSet; simpl; [done|lia]).
  cbn [passphrase_words].
  destruct (decide (S j * w ≤ 8 * Datatypes.length buffer)%nat) as [Hin|Hout].
  - rewrite next_index_spec; [|lia|done|done|nia].
    cbn [mbind option_bind].
    pose proof (index_range buffer w (Go.len wordSet) j Hsize) as Hidx.
    rewrite (list_lookup_lookup_total_lt wordSet
               (Z.to_nat (Spec.index buffer w (Go.len wordSet) j)))
      by (unfold Go.len in *; lia).
    cbn [mbind option_bind].
    unfold Go.uadd. rewrite (wrap_small (Z.of_nat j + 1)) by lia.
    replace (Z.of_nat j + 1) with (Z.of_nat (S j)) by lia.
    apply IH; [done|done|lia|lia|nia].
  - rewrite next_index_short; [done|done|lia|nia].
Qed.

(** X11. The bytes of the plan are the fewest that do: on a buffer with
    fewer bytes than the plan the extraction of a password, and of a
    passphrase, runs off the end of the buffer and panics. *)
Theorem X11_short_buffer_panics size length (buffer : list Z) :
  2 ≤ size ≤ Go.MaxInt → 0 ≤ length → 63 * length < Go.uint_modulus →
  Go.len buffer < (bit_plan size length).2 →
  (∀ charSet, Go.len charSet = size →
     password_of length charSet (bit_plan size length).1.1 buffer = None)
  ∧ (∀ wordSet separator, Go.len wordSet = size →
       passphrase_of length separator wordSet (bit_plan size length).1.1 buffer
       = None).
Proof.
  intros Hsize Hlen Hfit. rewrite bit_plan_spec by done. cbn [fst snd].
  intros Hshort.
  destruct (ceil_log2_bounds size Hsize) as [Hw _].
  set (w := Go.ceil_log2 size) in *.
  assert (8 * Go.len buffer < w * length) as Hbits.
  { unfold Spec.ceil_div in Hshort.
    pose proof (Z.div_mod (w * length + 8 - 1) 8 ltac:(lia)).
    pose proof (Z.mod_pos_bound (w * length + 8 - 1) 8 ltac:(lia)). lia. }
  assert (8 * Datatypes.length buffer < Z.to_nat length * Z.to_nat w)%nat
    as Hnat.
  { apply Nat2Z.inj_lt. rewrite !Nat2Z.inj_mul, !Z2Nat.id by lia.
    unfold Go.len in Hbits. simpl. lia. }
  assert (Z.of_nat (Z.to_nat length * Z.to_nat w) < Go.uint_modulus) as Hmax
    by nia.
  split.
  - intros charSet Hcs. unfold password_of.
    rewrite <- (Z2Nat.id w) at 1 by lia.
    change (Cursor 0 0 0) with (cursor_at 0 (0 * Z.to_nat w)).
    apply password_chars_short; [|lia|simpl; lia|simpl; lia].
    intros ->. unfold Go.len in Hcs. simpl in Hcs. lia.
  - intros wordSet separator Hws. unfold passphrase_of.
    rewrite <- (Z2Nat.id w) at 1 by lia.
    change (Cursor 0 0 0) with (cursor_at 0 (0 * Z.to_nat w)).
    change 0 with (Z.of_nat 0) at 1.
    apply passphrase_words_short; [|lia| |simpl; lia|simpl; lia].
    + intros ->. unfold Go.len in Hws. simpl in Hws. lia.
    + rewrite uint_modulus_eq in *. simpl. lia.
Qed.

(** ** More on the universe *)

Section UniverseShape.
Context `{Constants} `{UnicodeTables} `{MapRange}.

(** X10. The universe is decided by the set of the symbols given: two
    alphabets with the same characters, however ordered or repeated, give
    the same universe up to order, hence the same bit plan; so do two word
    lists with the same words after casing. *)
Theorem X10_universe_of_a_set :
  (∀ alphabet alphabet',
     (∀ c, c ∈ alphabet ↔ c ∈ alphabet') →
     charSet_of alphabet ≡ₚ charSet_of alphabet'
     ∧ ∀ length,
         bit_plan (Go.len (charSet_of alphabet)) length
         = bit_plan (Go.len (charSet_of alphabet')) length)
  ∧ (∀ casing wordList wordList',
       casing_known casing = true →
       (∀ w, w ∈ cased casing <$> wordList ↔ w ∈ cased casing <$> wordList') →
       wordSet_of casing wordList ≡ₚ wordSet_of casing wordList'
       ∧ ∀ wordCount,
           bit_plan (Go.len (wordSet_of casing wordList)) wordCount
           = bit_plan (Go.len (wordSet_of casing wordList')) wordCount).
Proof.
  split.
  - intros alphabet alphabet' Hsame.
    assert (charSet_of alphabet ≡ₚ charSet_of alphabet') as Hperm.
    { apply NoDup_Permutation; [apply charSet_of_NoDup..|].
      intros c. by rewrite !charSet_of_elem. }
    split; [done|]. intros length. unfold Go.len. by rewrite Hperm.
  - intros casing wordList wordList' Hk Hsame.
    assert (wordSet_of casing wordList ≡ₚ wordSet_of casing wordList') as Hperm.
    { apply NoDup_Permutation; [apply wordSet_of_NoDup..|].
      intros w. by rewrite !wordSet_of_elem. }
    split; [done|]. intros wordCount. unfold Go.len. by rewrite Hperm.
Qed.

(** *** Casing of ASCII words *)

Lemma ToLower_ascii r :
  0 ≤ r ≤ 127 →
  0 ≤ unicode.ToLower r ≤ 127 ∧ ¬ (65 ≤ unicode.ToLower r ≤ 90)
  ∧ unicode.ToLower (unicode.ToLower r) = unicode.ToLower r.
Proof.
  intros Hr. unfold unicode.ToLower, unicode.MaxASCII.
  destruct (Z.leb_spec r 127); [|lia].
  destruct (Z.leb_spec 65 r), (Z.leb_spec r 90); cbn [andb];
    repeat match goal with
           | |- context [?a <=? ?b] => destruct (Z.leb_spec a b)
           end; cbn [andb]; lia.
Qed.

Lemma ToUpper_ascii r :
  0 ≤ r ≤ 127 →
  0 ≤ unicode.ToUpper r ≤ 127 ∧ ¬ (97 ≤ unicode.ToUpper r ≤ 122)
  ∧ unicode.ToUpper (unicode.ToUpper r) = unicode.ToUpper r.
Proof.
  intros Hr. unfold unicode.ToUpper, unicode.MaxASCII.
  destruct (Z.leb_spec r 127); [|lia].
  destruct (Z.leb_spec 97 r), (Z.leb_spec r 122); cbn [andb];
    repeat match goal with
           | |- context [?a <=? ?b] => destruct (Z.leb_spec a b)
           end; cbn [andb]; lia.
Qed.

Lemma ToTitle_ascii r :
  0 ≤ r ≤ 127 →
  0 ≤ unicode.ToTitle r ≤ 127
  ∧ unicode.ToTitle (unicode.ToTitle r) = unicode.ToTitle r
  ∧ strings.isSeparator (unicode.ToTitle r) = strings.isSeparator r.
Proof.
  intros Hr. unfold unicode.ToTitle, unicode.MaxASCII, strings.isSeparator.
  destruct (Z.leb_spec r 127); [|lia].
  destruct (Z.leb_spec 97 r), (Z.leb_spec r 122); cbn [andb];
    repeat match goal with
           | |- context [?a <=? ?b] => destruct (Z.leb_spec a b)
           | |- context [?a =? ?b] => destruct (Z.eqb_spec a b)
           end; cbn [andb]; (lia || done).
Qed.

Lemma Title_from_again s : ∀ prev prev',
  Forall (λ r, 0 ≤ r ≤ 127) s →
  strings.isSeparator prev' = strings.isSeparator prev →
  strings.Title_from prev' (strings.Title_from prev s)
  = strings.Title_from prev s.
Proof.
  induction s as [|r s IH]; intros prev prev' Hall Hsep; [done|].
  apply Forall_cons in Hall as [Hr Hall].
  destruct (ToTitle_ascii r Hr) as (_ & Htt & Hts).
  cbn [strings.Title_from]. rewrite Hsep.
  destruct (strings.isSeparator prev).
  - rewrite Htt. f_equal. by apply IH.
  - f_equal. by apply IH.
Qed.

(** X12. Casing keeps the number of runes of a word.  For words of ASCII
    runes, the lower-case universe has no ASCII capital and the upper-case
    universe no ASCII small letter, and each casing transform gives the
    same word when applied to its own result, so a universe fed back as the
    word list is kept. *)
Theorem X12_casing_shape :
  (∀ casing w, Go.len (cased casing w) = Go.len w)
  ∧ (∀ wordList w,
       Forall (Forall (λ r, 0 ≤ r ≤ 127)) wordList →
       w ∈ wordSet_of PassphraseCasingLower wordList →
       Forall (λ r, ¬ (65 ≤ r ≤ 90)) w)
  ∧ (∀ wordList w,
       PassphraseCasingUpper ≠ PassphraseCasingLower →
       Forall (Forall (λ r, 0 ≤ r ≤ 127)) wordList →
       w ∈ wordSet_of PassphraseCasingUpper wordList →
       Forall (λ r, ¬ (97 ≤ r ≤ 122)) w)
  ∧ (∀ casing w,
       Forall (λ r, 0 ≤ r ≤ 127) w →
       cased casing (cased casing w) = cased casing w).
Proof.
  assert (∀ prev w,
            Datatypes.length (strings.Title_from prev w) = Datatypes.length w)
    as Htitle_len.
  { intros prev w. revert prev. induction w as [|r w IH]; intros prev; [done|].
    cbn [strings.Title_from Datatypes.length]. by rewrite IH. }
  split; [|split; [|split]].
  - intros casing w. unfold cased, Go.len.
    repeat case_match;
      unfold strings.ToLower, strings.ToUpper, strings.Title;
      by rewrite ?length_fmap, ?Htitle_len.
  - intros wordList w Hascii Hw.
    apply wordSet_of_elem in Hw;
      [|unfold casing_known; by rewrite Z.eqb_refl].
    apply list_elem_of_fmap in Hw as (x & -> & Hx).
    rewrite Forall_forall in Hascii. specialize (Hascii x Hx).
    unfold cased. rewrite Z.eqb_refl. unfold strings.ToLower.
    apply Forall_fmap. eapply Forall_impl; [exact Hascii|].
    intros r Hr. simpl. by apply ToLower_ascii.
  - intros wordList w Hne Hascii Hw.
    apply wordSet_of_elem in Hw;
      [|unfold casing_known; by rewrite Z.eqb_refl, orb_true_r].
    apply list_elem_of_fmap in Hw as (x & -> & Hx).
    rewrite Forall_forall in Hascii. specialize (Hascii x Hx).
    unfold cased. destruct (Z.eqb_spec PassphraseCasingUpper PassphraseCasingLower);
      [done|].
    rewrite Z.eqb_refl. unfold strings.ToUpper.
    apply Forall_fmap. eapply Forall_impl; [exact Hascii|].
    intros r Hr. simpl. by apply ToUpper_ascii.
  - intros casing w Hascii. unfold cased.
    repeat case_match; [| | |done].
    + unfold strings.ToLower. rewrite <- list_fmap_compose.
      apply Forall_fmap_ext_1. eapply Forall_impl; [exact Hascii|].
      intros r Hr. simpl. by apply ToLower_ascii.
    + unfold strings.ToUpper. rewrite <- list_fmap_compose.
      apply Forall_fmap_ext_1. eapply Forall_impl; [exact Hascii|].
      intros r Hr. simpl. by apply ToUpper_ascii.
    + unfold strings.Title. by apply Title_from_again.
Qed.

End UniverseShape.

(** * The further properties on concrete runs *)

Section MoreExamples.
#[local] Existing Instance spec_constants.
#[local] Existing Instance ascii_tables.
#[local] Existing Instance plain_range.
#[local] Existing Instance example_alphabets.

Lemma X1_witness :
  passwordCmd.Args (passwordCmd.Config 1 16 [] false false false false false)
    [runes "8"; runes "2"; runes "x"]
  = (Some (errorString "too many args provided"),
     passwordCmd.Config 1 16 [] false false false false false).
Proof.
  refine (proj1 (proj1 (proj2 (proj2 X1_arguments_accepted))
                   (passwordCmd.Config 1 16 [] false false false false false)
                   (passphraseCmd.Config 1 6 32 0 [] [] false false false false)
                   [runes "8"; runes "2"; runes "x"] _)).
  evaluate.
Defined.

Lemma X2_witness :
  passwordCmd.Args (passwordCmd.Config 1 16 [] false false false false false)
    [runes "24"; runes "3"]
  = (None, passwordCmd.Config 3 24 [] false false false false false).
Proof.
  refine (proj1 (proj1 X2_arguments_round_trip
                   (passwordCmd.Config 1 16 [] false false false false false)
                   24 3 _ _)); evaluate_all.
Defined.

Lemma X3_witness :
  (∃ passwords,
     (passwordCmd.RunE
        (passwordCmd.Config 2 4 (runes "abcab") false false false false false)
        [] [27; 228; 255]).1
       = Exits ([] ++ concat ((λ p, p ++ [10]) <$> passwords)) None
     ∧ Go.len passwords = 2
     ∧ Forall (λ password,
                 Go.len password = 4
                 ∧ Forall (λ c, c ∈ runes "abcab") password) passwords
     ∧ Go.len (concat ((λ p, p ++ [10]) <$> passwords)) = 2 * (4 + 1))
  ∨ (∃ err,
       (passwordCmd.RunE
          (passwordCmd.Config 2 4 (runes "abcab") false false false false false)
          [] [27; 228; 255]).1 = Exits [] (Some err)).
Proof.
  refine (proj1 (X3_password_command_prints _) (list Z) _
            (passwordCmd.Config 2 4 (runes "abcab") false false false false false)
            [] [27; 228; 255] _); evaluate_all.
Defined.

Lemma X4_witness :
  passwordCmd.RunE
    (passwordCmd.Config 2 4 (runes "abcab") true true true true true)
    [] [27; 228; 255]
  = passwordCmd.RunE
      (passwordCmd.Config 2 4 (runes "abcab") false false false false false)
      [] [27; 228; 255].
Proof.
  refine (proj1 X4_alphabet_choice (list Z) _
            (passwordCmd.Config 2 4 (runes "abcab") false false false false false)
            (passwordCmd.Config 2 4 (runes "abcab") true true true true true)
            [] [27; 228; 255] _ _ _ _); evaluate.
Defined.

Lemma X5_witness :
  passphraseCmd.RunE
    (passphraseCmd.Config 1 3 32 0 [runes "alfa"; runes "bravo"] []
       true false true false)
    None [] [27; 9]
  = (Exits [] (Some (errorString "at most one casing method is allowed")),
     [27; 9]).
Proof.
  refine (proj2 (proj2 (proj2 X5_casing_flags)) (list Z) _
            (passphraseCmd.Config 1 3 32 0 [runes "alfa"; runes "bravo"] []
               true false true false)
            None [] [27; 9] _ _); evaluate.
Defined.

Lemma X6_witness :
  passphraseCmd.RunE
    (passphraseCmd.Config 1 3 32 0 [runes "alfa"; runes "bravo"] (runes "==")
       false false false false)
    None [] [27; 9]
  = (Exits [] (Some (errorString "separator must be a single character")),
     [27; 9]).
Proof.
  refine (proj1 X6_separator_flag (list Z) _
            (passphraseCmd.Config 1 3 32 0 [runes "alfa"; runes "bravo"]
               (runes "==") false false false false)
            None [] [27; 9] _); evaluate.
Defined.

Lemma X7_witness :
  passphraseCmd.RunE
    (passphraseCmd.Config 1 3 32 0 [runes "alfa"; runes "bravo"] []
       false false false false)
    (Some (inr [runes " alfa"; runes "Alfa  "])) [] [27; 9]
  = (Exits [] (Some (InvalidUniverse "word list" 2 "words")), [27; 9]).
Proof.
  refine (proj1 (proj2 X7_word_list_file) (list Z) _
            (passphraseCmd.Config 1 3 32 0 [runes "alfa"; runes "bravo"] []
               false false false false)
            32 PassphraseCasingLower [runes " alfa"; runes "Alfa  "]
            [] [27; 9] _ _ _ _ _ _); evaluate_all.
Defined.

Lemma X8_witness : passphraseCmd.TrimSpace [32; 9; 32] = [].
Proof.
  refine (proj2 (proj2 X8_trimmed_lines) [32; 9; 32] _).
  repeat constructor.
Defined.

Lemma X9_witness :
  ∃ v,
    v = Spec.assemble (Spec.symbol_bits [27] 2 3)
    ∧ 0 ≤ v < 2 ^ Go.ceil_log2 3
    ∧ next_index (Go.ceil_log2 3) 3 [27] (cursor_at 0 (3 * 2))
      = Some (if v <? 3 then v else v - 3, cursor_at 0 (4 * 2))
    ∧ (3 = 2 ^ Go.ceil_log2 3 →
       next_index (Go.ceil_log2 3) 3 [27] (cursor_at 0 (3 * 2))
       = Some (v, cursor_at 0 (4 * 2)))
    ∧ (∀ v' i, 0 ≤ v' < 2 ^ Go.ceil_log2 3 → 0 ≤ i < 3 →
         v' mod 3 = i
         ↔ v' = i ∨ (v' = i + 3 ∧ i < 2 ^ Go.ceil_log2 3 - 3)).
Proof.
  refine (X9_reduction_bias [27] 3 3 _ _ _); evaluate_all.
Defined.

Lemma X10_witness :
  charSet_of (runes "abab") ≡ₚ charSet_of (runes "ba")
  ∧ ∀ length,
      bit_plan (Go.len (charSet_of (runes "abab"))) length
      = bit_plan (Go.len (charSet_of (runes "ba"))) length.
Proof.
  refine (proj1 X10_universe_of_a_set (runes "abab") (runes "ba") _).
  intros c. change (runes "abab") with [97; 98; 97; 98].
  change (runes "ba") with [98; 97].
  rewrite !elem_of_cons, elem_of_nil. tauto.
Defined.

Lemma X11_witness :
  (∀ charSet, Go.len charSet = 3 →
     password_of 4 charSet (bit_plan 3 4).1.1 [] = None)
  ∧ (∀ wordSet separator, Go.len wordSet = 3 →
       passphrase_of 4 separator wordSet (bit_plan 3 4).1.1 [] = None).
Proof.
  refine (X11_short_buffer_panics 3 4 [] _ _ _ _); evaluate_all.
Defined.

Lemma X12_witness :
  cased PassphraseCasingTitle (cased PassphraseCasingTitle (runes "alfa bravo"))
  = cased PassphraseCasingTitle (runes "alfa bravo").
Proof.
  refine (proj2 (proj2 (proj2 X12_casing_shape)) PassphraseCasingTitle
            (runes "alfa bravo") _).
  change (runes "alfa bravo") with [97; 108; 102; 97; 32; 98; 114; 97; 118; 111].
  repeat constructor; lia.
Defined.

End MoreExamples.
